(** * infra/pubsub.py: configuration and publish wrapper around a managed
      message-publishing client

    The first part embeds the two classes of [src/infra/pubsub.py],
    [PubsubConnectionConf] and [PubsubManager].  Everything the module imports
    (json.dumps, os.getenv, the service-account loader and the publisher
    client with its futures) is an interface, [Platform]; the module's own
    statements are translated one by one.

    The second part models the batching and ordering engine that the
    specification describes and the repository does not contain. *)

From stdpp Require Import gmap strings list pretty.
From Stdlib Require Import Strings.Byte ZArith Lia.

Set Warnings "-register-all".

(** ** Python values and exceptions *)

Definition bytes := list byte.

#[global] Instance byte_eq_decision : EqDecision byte := Byte.byte_eq_dec.

(** An exception is its class name and its message. *)
Inductive exn := Exn (cls : string) (msg : string).

#[global] Instance exn_eq_dec : EqDecision exn.
Proof. solve_decision. Defined.

Definition ValueError (msg : string) : exn := Exn "ValueError" msg.

(** A call either returns a value or raises. *)
Inductive result (A : Type) :=
| Return (a : A)
| Raise (e : exn).
Arguments Return {A} a.
Arguments Raise {A} e.

Definition result_bind {A B} (r : result A) (k : A -> result B) : result B :=
  match r with
  | Return a => k a
  | Raise e => Raise e
  end.

Definition raises {A} (r : result A) (cls : string) : Prop :=
  exists msg, r = Raise (Exn cls msg).




(** The values that end up in the keyword arguments of the client call:
    [str] and [bytes] objects. *)
Inductive pyval :=
| PyStr (s : string)
| PyBytes (b : bytes).

#[global] Instance pyval_eq_dec : EqDecision pyval.
Proof. solve_decision. Defined.

(** [str.encode(s)]: a [string] holds the UTF-8 text, its encoding is its
    bytes. *)
Definition str_encode (s : string) : bytes := String.list_byte_of_string s.

(** Truth value of an [Optional[str]] in an [if]. *)
Definition truthy_str (s : option string) : bool :=
  match s with
  | Some s => bool_decide (s <> EmptyString)
  | None => false
  end.

(** Truth value of an [Optional[dict]] in an [if]. *)
Definition truthy_dict (d : option (gmap string pyval)) : bool :=
  match d with
  | Some d => bool_decide (d <> ∅)
  | None => false
  end.

(** [x or d] for an [Optional[int]]: [None] and [0] are false. *)
Definition int_or (x : option Z) (d : Z) : Z :=
  match x with
  | Some n => if decide (n = 0%Z) then d else n
  | None => d
  end.

(** [d.update(other)]: the keys of [other] win. *)
Definition dict_update (d other : gmap string pyval) : gmap string pyval :=
  other ∪ d.

(** ** The settings objects handed to the client *)

(** [BatchSettings], with the two fields the module sets. *)
Record BatchSettings := {
  bs_max_bytes : Z;
  bs_max_messages : Z
}.

(** [Retry()]: the retry policy with the library's defaults. *)
Inductive Retry := Retry_default.

(** [PublisherOptions], with the two fields the module sets. *)
Record PublisherOptions := {
  enable_message_ordering : bool;
  retry : Retry
}.

(** ** What the module imports *)

Class Platform := {
  (** [object] and [json.dumps] *)
  pyobj : Type;
  dumps : pyobj -> result string;
  (** [google.oauth2.service_account.Credentials] *)
  Credentials : Type;
  from_service_account_file : string -> list string -> result Credentials;
  (** [pubsub_v1.PublisherClient], its futures, and the state of the network
      and broker behind it *)
  PublisherClient : Type;
  Future : Type;
  Network : Type;
  new_PublisherClient :
    BatchSettings -> PublisherOptions -> option Credentials -> PublisherClient;
  topic_path : PublisherClient -> string -> string -> string;
  client_publish :
    PublisherClient -> gmap string pyval -> Network -> result Future * Network;
  future_result : Future -> Network -> result string * Network
}.

Section Pubsub.
Context `{Platform}.

(** ** class PubsubConnectionConf *)

Definition _DEFAULT_BATCH_MESSAGES_ : Z := 100.
Definition _DEFAULT_MESSAGE_SIZE_ : Z := 10 ^ 6.

Record PubsubConnectionConf := {
  credentials : option Credentials;
  project_id : string;
  bach_settings : BatchSettings;
  publisher_options : PublisherOptions
}.

(** [__get_default_env]: [os.getenv] reads the process environment [env]. *)
Definition __get_default_env (env : gmap string string) (name : string)
  : result string :=
  match env !! name with
  | None =>
      Raise (ValueError
        ("The default value for " +:+ name +:+ " was not found in ENV FILE"))
  | Some value => Return value
  end.

(** [__set_batch_settings] *)
Definition __set_batch_settings (max_messages max_bytes : option Z)
  : BatchSettings :=
  {| bs_max_bytes := int_or max_bytes _DEFAULT_MESSAGE_SIZE_;
     bs_max_messages := int_or max_messages _DEFAULT_BATCH_MESSAGES_ |}.

(** [__set_publisher_options] *)
Definition __set_publisher_options (enable : bool) : PublisherOptions :=
  {| enable_message_ordering := enable; retry := Retry_default |}.

Definition cloud_platform_scopes : list string :=
  ["https://www.googleapis.com/auth/cloud-platform"].

(** [__init__]: the credentials are loaded first, then the project is read
    from the environment, then the two settings objects are built. *)
Definition PubsubConnectionConf_init (env : gmap string string)
    (service_account_file : option string) (enable_ordering : bool)
    (max_messages max_bytes : option Z) : result PubsubConnectionConf :=
  result_bind
    (match service_account_file with
     | Some f =>
         if truthy_str (Some f)
         then result_bind (from_service_account_file f cloud_platform_scopes)
                (fun c => Return (Some c))
         else Return None
     | None => Return None
     end)
    (fun creds =>
  result_bind (__get_default_env env "GOOGLE_CLOUD_PROJECT")
    (fun project =>
  Return {| credentials := creds;
            project_id := project;
            bach_settings := __set_batch_settings max_messages max_bytes;
            publisher_options := __set_publisher_options enable_ordering |})).

(** ** class PubsubManager *)

Record PubsubManager := {
  _connection_conf : PubsubConnectionConf;
  _client : PublisherClient
}.

(** [__init_client] *)
Definition __init_client (connection_conf : PubsubConnectionConf)
  : PublisherClient :=
  new_PublisherClient (bach_settings connection_conf)
    (publisher_options connection_conf) (credentials connection_conf).

(** [__init__] *)
Definition PubsubManager_init (connection_conf : PubsubConnectionConf)
  : PubsubManager :=
  {| _connection_conf := connection_conf;
     _client := __init_client connection_conf |}.

(** [__get_topic_path] *)
Definition __get_topic_path (self : PubsubManager) (topic_name : string)
  : string :=
  topic_path (_client self) (project_id (_connection_conf self)) topic_name.

(** The calls a method makes on the client, in order. *)
Inductive call :=
| CallPublish (kwargs : gmap string pyval)
| CallResult (f : Future).

(** A run of a method from a network state: what it returns or raises, the
    network afterwards, and the client calls it made. *)
Record run := {
  value : result string;
  net : Network;
  calls : list call
}.

(** Lines 112-125 of [publish]: the keyword arguments [_params]. *)
Definition publish_params (self : PubsubManager) (topic : string)
    (message : pyobj) (attributes : option (gmap string pyval))
    (ordering_key : option string) : result (gmap string pyval) :=
  let _params : gmap string pyval := ∅ in
  let _params :=
    if truthy_dict attributes
    then dict_update _params (default ∅ attributes)
    else _params in
  let _params :=
    if truthy_str ordering_key
    then dict_update _params
           {[ "ordering_key" := PyStr (default EmptyString ordering_key) ]}
    else _params in
  let project := project_id (_connection_conf self) in
  let topic := __get_topic_path self topic in
  result_bind (dumps message) (fun json =>
  Return (dict_update _params
            (<[ "project" := PyStr project ]>
               (<[ "topic" := PyStr topic ]>
                  {[ "data" := PyBytes (str_encode json) ]})))).

(** [publish]: build [_params], hand them to the client, then wait for the
    future: [return future.result()]. *)
Definition publish (self : PubsubManager) (topic : string) (message : pyobj)
    (attributes : option (gmap string pyval)) (ordering_key : option string)
    (n : Network) : run :=
  match publish_params self topic message attributes ordering_key with
  | Raise e => {| value := Raise e; net := n; calls := [] |}
  | Return _params =>
      match client_publish (_client self) _params n with
      | (Raise e, n1) =>
          {| value := Raise e; net := n1; calls := [CallPublish _params] |}
      | (Return future, n1) =>
          let '(r, n2) := future_result future n1 in
          {| value := r; net := n2;
             calls := [CallPublish _params; CallResult future] |}
      end
  end.

(** The keyword arguments of the [publish] calls among [cs]. *)
Definition forwarded (cs : list call) : list (gmap string pyval) :=
  omap (fun c => match c with CallPublish kw => Some kw | _ => None end) cs.

(** Whether a call is the wait on a future. *)
Definition is_wait (c : call) : bool :=
  match c with CallResult _ => true | CallPublish _ => false end.

(** How the call of the client's publish method with keyword arguments
    binds them: the keywords that are parameters
    of the client method, and the rest, collected as message attributes. *)
Definition bound_params (named : list string) (kwargs : gmap string pyval)
  : gmap string pyval :=
  filter (fun kv => kv.1 ∈ named) kwargs.

Definition bound_attrs (named : list string) (kwargs : gmap string pyval)
  : gmap string pyval :=
  filter (fun kv => kv.1 ∉ named) kwargs.

(** The three entries that the last [update] of [publish] writes. *)
Definition reserved (self : PubsubManager) (topic json : string)
  : gmap string pyval :=
  <[ "project" := PyStr (project_id (_connection_conf self)) ]>
    (<[ "topic" := PyStr (__get_topic_path self topic) ]>
       {[ "data" := PyBytes (str_encode json) ]}).

(** [_params] before the last [update]. *)
Definition caller_params (attributes : option (gmap string pyval))
    (ordering_key : option string) : gmap string pyval :=
  let p : gmap string pyval := ∅ in
  let p :=
    if truthy_dict attributes then dict_update p (default ∅ attributes)
    else p in
  if truthy_str ordering_key
  then dict_update p
         {[ "ordering_key" := PyStr (default EmptyString ordering_key) ]}
  else p.

(** The manager with other batch settings in its configuration, the client
    being the same object. *)
Definition with_batch_settings (bs : BatchSettings) (self : PubsubManager)
  : PubsubManager :=
  {| _connection_conf :=
       {| credentials := credentials (_connection_conf self);
          project_id := project_id (_connection_conf self);
          bach_settings := bs;
          publisher_options := publisher_options (_connection_conf self) |};
     _client := _client self |}.

(** The call forwards one message to the client, and its data keyword is
    the encoding of [json]. *)
Definition forwards_payload (r : run) (json : string) : Prop :=
  exists kw,
    forwarded (calls r) = [kw]
    /\ kw !! "data" = Some (PyBytes (str_encode json)).

(** The exception [e] of a [publish] call from the network state [n] was
    raised by [json.dumps], by the client's publish method or by the
    future's [result()]. *)
Definition raised_outside (self : PubsubManager) (topic : string)
    (message : pyobj) (attributes : option (gmap string pyval))
    (ordering_key : option string) (n : Network) (e : exn) : Prop :=
  dumps message = Raise e
  \/ (exists kw n1,
        publish_params self topic message attributes ordering_key = Return kw
        /\ client_publish (_client self) kw n = (Raise e, n1))
  \/ (exists kw future n1,
        publish_params self topic message attributes ordering_key = Return kw
        /\ client_publish (_client self) kw n = (Return future, n1)
        /\ (future_result future n1).1 = Raise e).

(** A run that returned without waiting on any future. *)
Definition returns_without_waiting (r : run) : Prop :=
  Forall (fun c => is_wait c = false) (calls r).

End Pubsub.

(** ** A loopback platform

    A platform on which the model runs: a small JSON fragment with the
    serializer's default separators, a key file that exists for every name
    but one, and a broker that accepts every message and numbers them. *)

Module Loopback.

Inductive json :=
| JNull
| JBool (b : bool)
| JList (items : list json)
| JSet.

Fixpoint json_dumps (j : json) : result string :=
  match j with
  | JNull => Return "null"
  | JBool true => Return "true"
  | JBool false => Return "false"
  | JList items =>
      result_bind
        ((fix each (l : list json) : result (list string) :=
            match l with
            | [] => Return []
            | x :: r =>
                result_bind (json_dumps x) (fun s =>
                result_bind (each r) (fun ss => Return (s :: ss)))
            end) items)
        (fun ss => Return ("[" +:+ String.concat ", " ss +:+ "]"))
  | JSet =>
      Raise (Exn "TypeError" "Object of type set is not JSON serializable")
  end.

Definition load_key_file (file : string) (scopes : list string)
  : result string :=
  if decide (file = "missing.json")
  then Raise (Exn "FileNotFoundError" file)
  else Return file.

Record client := {
  client_batch : BatchSettings;
  client_options : PublisherOptions;
  client_credentials : option string
}.

(** The broker's log: the keyword arguments of every accepted message. *)
Definition broker := list (gmap string pyval).

Definition format_topic (c : client) (project topic : string) : string :=
  "projects/" +:+ project +:+ "/topics/" +:+ topic.

Definition accept (c : client) (kwargs : gmap string pyval) (b : broker)
  : result nat * broker :=
  (Return (length b), b ++ [kwargs]).

Definition message_id (future : nat) (b : broker) : result string * broker :=
  (Return (pretty future), b).

#[export] Instance platform : Platform := {|
  pyobj := json;
  dumps := json_dumps;
  Credentials := string;
  from_service_account_file := load_key_file;
  PublisherClient := client;
  Future := nat;
  Network := broker;
  new_PublisherClient := Build_client;
  topic_path := format_topic;
  client_publish := accept;
  future_result := message_id
|}.

Definition env : gmap string string :=
  {[ "GOOGLE_CLOUD_PROJECT" := "pharma" ]}.

(** The configuration that [PubsubConnectionConf] builds in [env] without a
    key file, and its manager. *)
Definition conf (max_messages max_bytes : option Z) : PubsubConnectionConf :=
  {| credentials := None;
     project_id := "pharma";
     bach_settings := __set_batch_settings max_messages max_bytes;
     publisher_options := __set_publisher_options false |}.

Definition manager (max_messages max_bytes : option Z) : PubsubManager :=
  PubsubManager_init (conf max_messages max_bytes).

(** [n] lists around [None]: a message as long as one likes. *)
Fixpoint nest (n : nat) : json :=
  match n with
  | O => JNull
  | S m => JList [nest m]
  end.

(** The keyword arguments of a publish call for the topic orders with the
    message [None], without and with an attribute named ordering_key. *)
Definition orders_kwargs : gmap string pyval :=
  <[ "project" := PyStr "pharma" ]>
    (<[ "topic" := PyStr "projects/pharma/topics/orders" ]>
       {[ "data" := PyBytes (str_encode "null") ]}).

Definition mine_kwargs : gmap string pyval :=
  <[ "ordering_key" := PyStr "mine" ]> orders_kwargs.

(** A configuration built with a key file and message ordering. *)
Definition keyed_conf : PubsubConnectionConf :=
  {| credentials := Some "key.json";
     project_id := "pharma";
     bach_settings := __set_batch_settings (Some 7%Z) None;
     publisher_options := __set_publisher_options true |}.

End Loopback.

(** ** A client that guards ordering keys

    The loopback platform with a client as strict as the managed one about
    ordering keys: it refuses a message that carries an ordering key when
    message ordering was not enabled at construction. *)

Module Guarded.

Definition accept (c : Loopback.client) (kwargs : gmap string pyval)
    (b : Loopback.broker) : result nat * Loopback.broker :=
  match kwargs !! "ordering_key" with
  | Some _ =>
      if enable_message_ordering (Loopback.client_options c)
      then Loopback.accept c kwargs b
      else (Raise (Exn "ValueError" "message ordering is not enabled"), b)
  | None => Loopback.accept c kwargs b
  end.

Definition platform : Platform := {|
  pyobj := Loopback.json;
  dumps := Loopback.json_dumps;
  Credentials := string;
  from_service_account_file := Loopback.load_key_file;
  PublisherClient := Loopback.client;
  Future := nat;
  Network := Loopback.broker;
  new_PublisherClient := Loopback.Build_client;
  topic_path := Loopback.format_topic;
  client_publish := accept;
  future_result := Loopback.message_id
|}.

(** The manager of a configuration built without message ordering. *)
Definition manager : @PubsubManager platform :=
  @PubsubManager_init platform
    {| credentials := None;
       project_id := "pharma";
       bach_settings := __set_batch_settings None None;
       publisher_options := __set_publisher_options false |}.

(** The keyword arguments of its publish call for the topic orders with the
    message [None] and the ordering key lane. *)
Definition lane_kwargs : gmap string pyval :=
  <[ "ordering_key" := PyStr "lane" ]> Loopback.orders_kwargs.

(** The same without ordering key and with the attribute colour. *)
Definition colour_kwargs : gmap string pyval :=
  <[ "colour" := PyStr "red" ]> Loopback.orders_kwargs.

End Guarded.

(** ** A key file that is readable and malformed

    The loopback platform with a loader as the managed one on a key file
    that can be read and does not hold JSON: the loader's [json.load] raises
    [json.JSONDecodeError], a subclass of [ValueError]. *)

Module Malformed.

Definition load_key_file (file : string) (scopes : list string)
  : result string :=
  if decide (file = "malformed.json")
  then Raise (Exn "JSONDecodeError" "Expecting value: line 1 column 1 (char 0)")
  else Loopback.load_key_file file scopes.

Definition platform : Platform := {|
  pyobj := Loopback.json;
  dumps := Loopback.json_dumps;
  Credentials := string;
  from_service_account_file := load_key_file;
  PublisherClient := Loopback.client;
  Future := nat;
  Network := Loopback.broker;
  new_PublisherClient := Loopback.Build_client;
  topic_path := Loopback.format_topic;
  client_publish := Loopback.accept;
  future_result := Loopback.message_id
|}.

End Malformed.

(** * The batching and ordering engine of the specification

    [pubsub.py] leaves batching, ordering and retry to the client it wraps.
    The specification describes them as components of their own (Batcher,
    OrderingLane, Sender); none of them is in the repository, so they are
    modelled here from the specification's sections 3 and 4. *)

Module Engine.

(** ** Data model (section 3) *)

(** Modelled from the spec: MessageEnvelope, which the repository lacks.
    The single-assignment result cell is the entry [result_slot] of the
    table of outcomes. *)
Record MessageEnvelope := {
  payload : bytes;
  attributes : gmap string string;
  ordering_key : option string;
  created_at : nat;
  result_slot : nat
}.

#[global] Instance MessageEnvelope_eq_dec : EqDecision MessageEnvelope.
Proof. solve_decision. Defined.

(** Modelled from the spec: the byte size of an envelope, [len(payload)],
    which the repository lacks. *)
Definition size (e : MessageEnvelope) : Z := Z.of_nat (length (payload e)).

(** Modelled from the spec: Batch, which the repository lacks. *)
Record Batch := {
  destination : string;
  envelopes : list MessageEnvelope;
  total_bytes : Z
}.

(** ** Batcher (section 4.1) *)

(** Modelled from the spec: the Batcher's state, which the repository lacks:
    one open batch per destination, and the batches handed to the Sender so
    far, oldest first. *)
Record Batcher := {
  open_batches : gmap string Batch;
  dispatched : list Batch
}.

(** Modelled from the spec: a Batcher before its first envelope, absent
    from the repository. *)
Definition new_batcher : Batcher :=
  {| open_batches := ∅; dispatched := [] |}.

(** Modelled from the spec: the batch that is created empty on the first
    envelope for a destination, absent from the repository. *)
Definition empty_batch (dest : string) : Batch :=
  {| destination := dest; envelopes := []; total_bytes := 0 |}.

(** Modelled from the spec: the insertion of an envelope, absent from the
    repository: insertion order is kept and [total_bytes] is the running
    sum. *)
Definition insert_envelope (e : MessageEnvelope) (b : Batch) : Batch :=
  {| destination := destination b;
     envelopes := envelopes b ++ [e];
     total_bytes := total_bytes b + size e |}.

(** Modelled from the spec: the count/size trigger of section 4.1, absent
    from the repository: [total_bytes >= max_bytes] or
    [len(envelopes) >= max_messages]. *)
Definition threshold_reached (cfg : BatchSettings) (b : Batch) : bool :=
  bool_decide (bs_max_bytes cfg <= total_bytes b
               \/ bs_max_messages cfg <= Z.of_nat (length (envelopes b)))%Z.

(** Modelled from the spec: sealing, absent from the repository: the open
    batch of the destination is closed and handed to the Sender. *)
Definition seal (dest : string) (st : Batcher) : Batcher :=
  match open_batches st !! dest with
  | Some b =>
      {| open_batches := delete dest (open_batches st);
         dispatched := dispatched st ++ [b] |}
  | None => st
  end.

(** Modelled from the spec: whether an envelope still fits an open batch,
    absent from the repository: with it the batch stays within both
    thresholds (section 3: total_bytes <= max_bytes and len(envelopes) <=
    max_messages for any batch handed to the Sender). *)
Definition fits (cfg : BatchSettings) (e : MessageEnvelope) (b : Batch)
  : bool :=
  bool_decide (total_bytes b + size e <= bs_max_bytes cfg
               /\ Z.of_nat (length (envelopes b)) + 1 <= bs_max_messages cfg)%Z.

(** Modelled from the spec: Batcher.add of section 4.1, absent from the
    repository.  An envelope larger than max_bytes on its own is rejected.
    An open batch that the envelope does not fit is sealed first, and a new
    batch is opened for the envelope; otherwise the envelope is inserted into
    the open batch of its destination (opened on the first envelope).  After
    the insertion the batch is sealed when a threshold is reached. *)
Definition add (cfg : BatchSettings) (e : MessageEnvelope) (dest : string)
    (st : Batcher) : result Batcher :=
  if decide (bs_max_bytes cfg < size e)%Z
  then Raise (Exn "PayloadTooLargeError" dest)
  else
    let st1 :=
      match open_batches st !! dest with
      | Some b => if fits cfg e b then st else seal dest st
      | None => st
      end in
    let b := default (empty_batch dest) (open_batches st1 !! dest) in
    let b' := insert_envelope e b in
    let st' := {| open_batches := <[dest := b']> (open_batches st1);
                  dispatched := dispatched st1 |} in
    Return (if threshold_reached cfg b' then seal dest st' else st').

(** Modelled from the spec: the time trigger of section 4.1, absent from
    the repository: an open batch older than max_latency is sealed.  The age
    of a batch is counted from the enqueue time of its first envelope. *)
Definition latency_trigger (max_latency now : nat) (dest : string)
    (st : Batcher) : Batcher :=
  match open_batches st !! dest with
  | Some b =>
      match head (envelopes b) with
      | Some e =>
          if decide (max_latency < now - created_at e) then seal dest st else st
      | None => st
      end
  | None => st
  end.

(** Modelled from the spec: what happens to a Batcher, which the
    repository lacks: an envelope arrives, or the timer looks at a
    destination. *)
Inductive batcher_op :=
| Add (e : MessageEnvelope) (dest : string)
| Timer (now : nat) (dest : string).

(** Modelled from the spec: one operation on a Batcher, absent from the
    repository; a rejected envelope leaves the Batcher as it was. *)
Definition batcher_step (cfg : BatchSettings) (max_latency : nat)
    (st : Batcher) (o : batcher_op) : Batcher :=
  match o with
  | Add e dest =>
      match add cfg e dest st with
      | Return st' => st'
      | Raise _ => st
      end
  | Timer now dest => latency_trigger max_latency now dest st
  end.

(** Modelled from the spec: a Batcher after a sequence of operations,
    absent from the repository. *)
Definition batcher_run (cfg : BatchSettings) (max_latency : nat)
    (ops : list batcher_op) : Batcher :=
  foldl (batcher_step cfg max_latency) new_batcher ops.

(** ** Sender (section 4.3) *)

(** Modelled from the spec: the error taxonomy of section 7 for a send,
    which the repository lacks. *)
Inductive send_error :=
| TransientSendError (msg : string)
| PermanentSendError (msg : string).

(** Modelled from the spec: what a result slot can fail with, which the
    repository lacks. *)
Inductive error :=
| SendError (e : send_error)
| OrderingLaneAbortedError.

(** Modelled from the spec: the content of a result slot, which the
    repository lacks. *)
Inductive outcome :=
| Success (message_id : string)
| Failure (e : error).

(** Modelled from the spec: the sink boundary of section 6, which the
    repository lacks: per-message ids, or one terminating error. *)
Inductive sink_reply :=
| Accepted (ids : list string)
| Refused (e : send_error).

(** Modelled from the spec: the configuration and the sink, which the
    repository lacks.  The thresholds are the batch settings that
    [__set_batch_settings] builds.  [send_batch n] is the sink's answer to
    the [n]-th call made on it.  The specification does not say whether a
    batch that exhausts its retries on a transient error aborts its lane;
    [abort_on_exhaustion] covers both readings. *)
Record Setup := {
  thresholds : BatchSettings;
  max_attempt : nat;
  send_batch : nat -> string -> list MessageEnvelope -> sink_reply;
  abort_on_exhaustion : bool
}.

(** Modelled from the spec: how a Sender call ends, which the repository
    lacks. *)
Inductive sent :=
| Delivered (ids : list string)
| Failed (e : send_error).

(** Modelled from the spec: Sender.send of section 4.3, absent from the
    repository.  The batch is issued to the sink; a transient failure is
    retried while retries are left, a permanent one ends the call at once.
    The result is the number of the next sink call and how the call ended. *)
Fixpoint send (s : Setup) (retries : nat) (calls : nat) (dest : string)
    (batch : list MessageEnvelope) : nat * sent :=
  match send_batch s calls dest batch with
  | Accepted ids => (S calls, Delivered ids)
  | Refused (PermanentSendError m) => (S calls, Failed (PermanentSendError m))
  | Refused (TransientSendError m) =>
      match retries with
      | O => (S calls, Failed (TransientSendError m))
      | S r => send s r (S calls) dest batch
      end
  end.

(** Modelled from the spec: the write to a result slot, absent from the
    repository: the first write stands, a second one is ignored. *)
Definition resolve (slot : nat) (o : outcome) (slots : gmap nat outcome)
  : gmap nat outcome :=
  match slots !! slot with
  | Some _ => slots
  | None => <[slot := o]> slots
  end.

(** Modelled from the spec: the Sender failing every envelope of a batch
    with the terminating error, absent from the repository. *)
Definition fail_all (es : list MessageEnvelope) (e : error)
    (slots : gmap nat outcome) : gmap nat outcome :=
  foldl (fun sl env => resolve (result_slot env) (Failure e) sl) slots es.

(** Modelled from the spec: the Sender writing the ids, matched with the
    envelopes in the batch's order, absent from the repository. *)
Definition succeed_all (es : list MessageEnvelope) (ids : list string)
    (slots : gmap nat outcome) : gmap nat outcome :=
  foldl (fun sl p => resolve (result_slot p.1) (Success p.2) sl) slots
        (zip es ids).

(** ** OrderingLane (section 4.2) *)

(** Modelled from the spec: OrderingLane, which the repository lacks. *)
Record OrderingLane := {
  key : string;
  pending : list MessageEnvelope;
  in_flight : bool
}.

(** Modelled from the spec: the lane created for an unseen key, absent
    from the repository. *)
Definition new_lane (k : string) : OrderingLane :=
  {| key := k; pending := []; in_flight := false |}.

(** Modelled from the spec: OrderingLane.enqueue, absent from the
    repository. *)
Definition enqueue (e : MessageEnvelope) (l : OrderingLane) : OrderingLane :=
  {| key := key l; pending := pending l ++ [e]; in_flight := in_flight l |}.

(** Modelled from the spec: "up to batch thresholds", absent from the
    repository: how many of the envelopes [l] fit after [count] envelopes
    of [bytes] bytes. *)
Fixpoint fitting (cfg : BatchSettings) (count bytes : Z)
    (l : list MessageEnvelope) : nat :=
  match l with
  | [] => O
  | e :: r =>
      if decide (count + 1 <= bs_max_messages cfg
                 /\ bytes + size e <= bs_max_bytes cfg)%Z
      then S (fitting cfg (count + 1) (bytes + size e) r)
      else O
  end.

(** Modelled from the spec: OrderingLane.try_dispatch, absent from the
    repository: the next contiguous prefix of the pending envelopes, up to
    the thresholds, only when nothing is in flight; the flag is set with the
    return.  The head is always part of the prefix, so that a lane never
    stalls. *)
Definition try_dispatch (cfg : BatchSettings) (l : OrderingLane)
  : option (list MessageEnvelope * OrderingLane) :=
  if in_flight l then None
  else
    match pending l with
    | [] => None
    | e :: r =>
        let n := S (fitting cfg 1 (size e) r) in
        Some (take n (pending l),
              {| key := key l; pending := drop n (pending l);
                 in_flight := true |})
    end.

(** Modelled from the spec: what a lane does when the Sender call for its
    prefix completes, absent from the repository: the flag is cleared, and
    after a failure that aborts the lane the pending envelopes are dropped
    from it. *)
Definition on_complete (abort : bool) (l : OrderingLane) : OrderingLane :=
  {| key := key l;
     pending := if abort then [] else pending l;
     in_flight := false |}.

(** Modelled from the spec: whether a Sender call that ended this way
    aborts the lane, absent from the repository. *)
Definition aborts (s : Setup) (r : sent) : bool :=
  match r with
  | Delivered _ => false
  | Failed (PermanentSendError _) => true
  | Failed (TransientSendError _) => abort_on_exhaustion s
  end.

(** ** The lanes of a PublishManager with their Sender (sections 4.2-4.4) *)

(** Modelled from the spec: the state the PublishManager owns for ordered
    traffic, which the repository lacks: one lane per (destination, key)
    pair, the batches handed to the Sender and not completed yet, the result
    slots, what the sink accepted, and the envelopes in enqueue order. *)
Record System := {
  lanes : gmap (string * string) OrderingLane;
  transit : list (string * string * list MessageEnvelope);
  slots : gmap nat outcome;
  sink_log : list (string * MessageEnvelope);
  sink_calls : nat;
  enqueued : list (string * MessageEnvelope)
}.

(** Modelled from the spec: the state before the first publish, absent
    from the repository. *)
Definition new_system : System :=
  {| lanes := ∅; transit := []; slots := ∅; sink_log := [];
     sink_calls := O; enqueued := [] |}.

(** Modelled from the spec: the lane of a (destination, key) pair, absent
    from the repository; a pair without a lane is as an idle lane. *)
Definition lane_of (st : System) (dest k : string) : OrderingLane :=
  default (new_lane k) (lanes st !! (dest, k)).

(** The batches of a lane that are in transit. *)
Definition transit_of (dest k : string)
    (ts : list (string * string * list MessageEnvelope))
  : list (list MessageEnvelope) :=
  (filter (fun t => t.1 = (dest, k)) ts).*2.

(** The oldest batch of a lane in transit, and the others. *)
Fixpoint take_batch (dest k : string)
    (ts : list (string * string * list MessageEnvelope))
  : option (list MessageEnvelope
            * list (string * string * list MessageEnvelope)) :=
  match ts with
  | [] => None
  | t :: r =>
      if decide (t.1 = (dest, k)) then Some (t.2, r)
      else
        match take_batch dest k r with
        | Some (b, r') => Some (b, t :: r')
        | None => None
        end
  end.

(** Modelled from the spec: what happens to the lanes, which the
    repository lacks: a publish with an ordering key, the background
    dispatch of a lane, the completion of a Sender call, the reclaim of an
    idle lane. *)
Inductive op :=
| Enqueue (dest k : string) (data : bytes) (attrs : gmap string string)
          (now : nat)
| Dispatch (dest k : string)
| Complete (dest k : string)
| Reclaim (dest k : string).

(** Modelled from the spec: PublishManager.publish with an ordering key
    (section 4.4), absent from the repository: a new envelope with a fresh
    result slot is routed to the lane of its (destination, key) pair, which
    is created on first use. *)
Definition do_enqueue (dest k : string) (data : bytes)
    (attrs : gmap string string) (now : nat) (st : System) : System :=
  let e := {| payload := data; attributes := attrs; ordering_key := Some k;
              created_at := now; result_slot := length (enqueued st) |} in
  {| lanes := <[(dest, k) := enqueue e (lane_of st dest k)]> (lanes st);
     transit := transit st;
     slots := slots st;
     sink_log := sink_log st;
     sink_calls := sink_calls st;
     enqueued := enqueued st ++ [(dest, e)] |}.

(** Modelled from the spec: the size check of a publish with an ordering
    key, absent from the repository: a message larger than max_bytes raises
    PayloadTooLargeError synchronously and nothing is enqueued (sections 4.1
    and 8); any other message is enqueued.  The validation of section 4.4
    (non-empty payload, and an absolute ceiling whose value the
    specification does not give) comes before and only removes runs. *)
Definition publish_keyed (s : Setup) (dest k : string) (data : bytes)
    (attrs : gmap string string) (now : nat) (st : System) : result System :=
  if decide (bs_max_bytes (thresholds s) < Z.of_nat (length data))%Z
  then Raise (Exn "PayloadTooLargeError" dest)
  else Return (do_enqueue dest k data attrs now st).

(** Modelled from the spec: the dispatch of a lane's next prefix to the
    Sender, absent from the repository. *)
Definition do_dispatch (s : Setup) (dest k : string) (st : System) : System :=
  match try_dispatch (thresholds s) (lane_of st dest k) with
  | Some (prefix, l) =>
      {| lanes := <[(dest, k) := l]> (lanes st);
         transit := transit st ++ [(dest, k, prefix)];
         slots := slots st;
         sink_log := sink_log st;
         sink_calls := sink_calls st;
         enqueued := enqueued st |}
  | None => st
  end.

(** Modelled from the spec: the completion of a Sender call, absent from
    the repository.  The call makes a first attempt and at most
    max_attempt - 1 retries.  On success the sink has accepted the batch and
    every envelope gets its id; on failure every envelope of the batch gets
    the terminating error, and when the failure aborts the lane every
    pending envelope gets OrderingLaneAbortedError. *)
Definition do_complete (s : Setup) (dest k : string) (st : System) : System :=
  match take_batch dest k (transit st) with
  | None => st
  | Some (batch, rest) =>
      let '(calls, r) :=
        send s (pred (max_attempt s)) (sink_calls st) dest batch in
      let l := lane_of st dest k in
      {| lanes := <[(dest, k) := on_complete (aborts s r) l]> (lanes st);
         transit := rest;
         slots :=
           match r with
           | Delivered ids => succeed_all batch ids (slots st)
           | Failed e =>
               let sl := fail_all batch (SendError e) (slots st) in
               if aborts s r
               then fail_all (pending l) OrderingLaneAbortedError sl
               else sl
           end;
         sink_log :=
           match r with
           | Delivered _ => sink_log st ++ ((fun e => (dest, e)) <$> batch)
           | Failed _ => sink_log st
           end;
         sink_calls := calls;
         enqueued := enqueued st |}
  end.

(** Modelled from the spec: idle reclaim (section 3), absent from the
    repository: a lane with nothing pending and nothing in flight is
    destroyed. *)
Definition do_reclaim (dest k : string) (st : System) : System :=
  match lanes st !! (dest, k) with
  | Some l =>
      if decide (pending l = [] /\ in_flight l = false)
      then {| lanes := delete (dest, k) (lanes st);
              transit := transit st;
              slots := slots st;
              sink_log := sink_log st;
              sink_calls := sink_calls st;
              enqueued := enqueued st |}
      else st
  | None => st
  end.

(** Modelled from the spec: one operation on the lanes, absent from the
    repository; a rejected publish leaves the lanes as they were. *)
Definition step (s : Setup) (st : System) (o : op) : System :=
  match o with
  | Enqueue dest k data attrs now =>
      match publish_keyed s dest k data attrs now st with
      | Return st' => st'
      | Raise _ => st
      end
  | Dispatch dest k => do_dispatch s dest k st
  | Complete dest k => do_complete s dest k st
  | Reclaim dest k => do_reclaim dest k st
  end.

(** Modelled from the spec: the lanes after a sequence of operations, in
    any interleaving, absent from the repository. *)
Definition run_ops (s : Setup) (ops : list op) : System :=
  foldl (step s) new_system ops.

(** The entries of a log that belong to one lane. *)
Definition of_lane (dest k : string) (log : list (string * MessageEnvelope))
  : list MessageEnvelope :=
  (filter (fun p => p.1 = dest /\ ordering_key p.2 = Some k) log).*2.

(** The entries of a log that carry one ordering key, whatever the
    destination. *)
Definition of_key (k : string) (log : list (string * MessageEnvelope))
  : list MessageEnvelope :=
  (filter (fun p => ordering_key p.2 = Some k) log).*2.

(** The batches in transit that contain an envelope of one ordering key. *)
Definition transit_with_key (k : string)
    (ts : list (string * string * list MessageEnvelope))
  : list (string * string * list MessageEnvelope) :=
  filter (fun t => Exists (fun e => ordering_key e = Some k) t.2) ts.

(** ** What the claims say about a dispatched batch *)

Definition sum_sizes (es : list MessageEnvelope) : Z :=
  foldr (fun e acc => (size e + acc)%Z) 0%Z es.






(** ** What the claims say about the lanes *)

(** The batches in transit for one destination that contain an envelope of
    one ordering key. *)
Definition transit_with (dest k : string)
    (ts : list (string * string * list MessageEnvelope))
  : list (string * string * list MessageEnvelope) :=
  filter (fun t => t.1.1 = dest
                   /\ Exists (fun e => ordering_key e = Some k) t.2) ts.

(** The claim read by ordering key alone: the sink's log of the key is in
    enqueue order and at most one batch with envelopes of the key is in
    transit. *)
Definition key_in_order (st : System) (k : string) : Prop :=
  of_key k (sink_log st) `sublist_of` of_key k (enqueued st)
  /\ length (transit_with_key k (transit st)) <= 1.

(** The envelopes of one ordering key that are queued and not dispatched,
    whatever their destination. *)
Definition queued_with_key (st : System) (k : string)
  : list MessageEnvelope :=
  filter (fun e => ordering_key e = Some k)
    (concat ((fun p => pending p.2) <$> map_to_list (lanes st))).

(** The abort read by ordering key alone: when the Sender call of the lane
    completes, every queued envelope of the key is failed with
    OrderingLaneAbortedError. *)
Definition key_aborted (s : Setup) (st : System) (dest k : string) : Prop :=
  forall e,
    e ∈ queued_with_key st k ->
    slots (do_complete s dest k st) !! result_slot e
    = Some (Failure OrderingLaneAbortedError).


(** The sink accepts whatever it is sent. *)
Definition always_accepts (s : Setup) : Prop :=
  forall n dest batch, exists ids, send_batch s n dest batch = Accepted ids.

(** Every envelope of a lane is with the sink, in transit or pending, in
    enqueue order. *)
Definition nothing_lost (st : System) : Prop :=
  forall d k,
    of_lane d k (sink_log st) ++ concat (transit_of d k (transit st))
      ++ pending (lane_of st d k)
    = of_lane d k (enqueued st).

(** ** The invariant of the lanes

    For every lane: the flag says whether a batch of the lane is in transit;
    what the sink accepted, what is in transit and what is pending are, in
    this order, a part of what was enqueued; no envelope in transit or
    pending has a result yet.  Result slots are numbered in enqueue order
    and only slots of enqueued envelopes hold a result. *)

Record lanes_invariant (st : System) : Prop := {
  inv_flag : forall d k,
    length (transit_of d k (transit st))
    = if in_flight (lane_of st d k) then 1 else 0;
  inv_order : forall d k,
    of_lane d k (sink_log st) ++ concat (transit_of d k (transit st))
      ++ pending (lane_of st d k)
    `sublist_of` of_lane d k (enqueued st);
  inv_unresolved : forall d k e,
    e ∈ concat (transit_of d k (transit st)) ++ pending (lane_of st d k) ->
    slots st !! result_slot e = None;
  inv_slots :
    result_slot <$> (enqueued st).*2 = seq 0 (length (enqueued st));
  inv_resolved : forall i,
    is_Some (slots st !! i) -> i < length (enqueued st)
}.

(** ** Set-ups and runs of the engine *)

Definition envelope_of_size (n : nat) : MessageEnvelope :=
  {| payload := replicate n "x"%byte; attributes := ∅; ordering_key := None;
     created_at := O; result_slot := O |}.

(** A sink that accepts every batch and names each message after its
    result slot. *)
Definition accepting : Setup :=
  {| thresholds := __set_batch_settings None None;
     max_attempt := 3;
     send_batch := fun _ _ es =>
       Accepted ((fun e => pretty (result_slot e)) <$> es);
     abort_on_exhaustion := false |}.

(** A sink that refuses its first call for good and accepts afterwards. *)
Definition refusing_first : Setup :=
  {| thresholds := __set_batch_settings None None;
     max_attempt := 3;
     send_batch := fun n _ es =>
       match n with
       | O => Refused (PermanentSendError "malformed request")
       | S _ => Accepted ((fun e => pretty (result_slot e)) <$> es)
       end;
     abort_on_exhaustion := false |}.

(** A sink that fails its first two calls transiently and accepts
    afterwards. *)
Definition flaky : Setup :=
  {| thresholds := __set_batch_settings None None;
     max_attempt := 3;
     send_batch := fun n _ es =>
       match n with
       | O | S O => Refused (TransientSendError "timeout")
       | S (S _) => Accepted ((fun e => pretty (result_slot e)) <$> es)
       end;
     abort_on_exhaustion := false |}.

Definition hello : bytes := ["h"%byte; "i"%byte].

Definition two_destinations : list op :=
  [Enqueue "orders" "k" hello ∅ 0; Enqueue "invoices" "k" hello ∅ 1;
   Dispatch "orders" "k"; Dispatch "invoices" "k"].

Definition two_lanes_one_key : list op :=
  [Enqueue "orders" "k" hello ∅ 0; Dispatch "orders" "k";
   Enqueue "invoices" "k" hello ∅ 1; Enqueue "orders" "k" hello ∅ 2].

(** A set-up with small thresholds. *)
Definition narrow : Setup :=
  {| thresholds := __set_batch_settings (Some 2%Z) (Some 10%Z);
     max_attempt := 1;
     send_batch := send_batch accepting;
     abort_on_exhaustion := false |}.

(** The runs of a Batcher and of a lane under the small thresholds. *)
Definition narrow_adds : list batcher_op :=
  [Add (envelope_of_size 6) "orders";
   Add (envelope_of_size 11) "orders";
   Add (envelope_of_size 6) "orders";
   Add (envelope_of_size 1) "invoices";
   Timer 9 "invoices";
   Add (envelope_of_size 1) "orders";
   Add (envelope_of_size 2) "orders"].

Definition narrow_ops : list op :=
  [Enqueue "orders" "k" (replicate 6 "x"%byte) ∅ 0;
   Enqueue "orders" "k" (replicate 11 "x"%byte) ∅ 1;
   Enqueue "orders" "k" (replicate 6 "x"%byte) ∅ 2;
   Enqueue "orders" "k" (replicate 3 "x"%byte) ∅ 3;
   Dispatch "orders" "k"; Complete "orders" "k"].

Definition five_messages : list op :=
  [Enqueue "orders" "k" hello ∅ 0; Dispatch "orders" "k";
   Enqueue "orders" "k" hello ∅ 1; Enqueue "orders" "k" hello ∅ 2;
   Enqueue "orders" "k" hello ∅ 3; Enqueue "orders" "k" hello ∅ 4].

Definition envelope (slot : nat) : MessageEnvelope :=
  {| payload := hello; attributes := ∅; ordering_key := Some "k";
     created_at := slot; result_slot := slot |}.

End Engine.

(** * Properties of [PubsubConnectionConf] and [PubsubManager] *)

Section PubsubFacts.
Context `{Platform}.

Lemma publish_params_eq self topic message attributes ordering_key :
  publish_params self topic message attributes ordering_key =
  result_bind (dumps message) (fun json =>
    Return (dict_update (caller_params attributes ordering_key)
              (reserved self topic json))).
Proof. reflexivity. Qed.

Lemma publish_params_Return self topic message attributes ordering_key kw :
  publish_params self topic message attributes ordering_key = Return kw ->
  exists json,
    dumps message = Return json
    /\ kw = dict_update (caller_params attributes ordering_key)
              (reserved self topic json).
Proof.
  rewrite publish_params_eq. destruct (dumps message) as [json|e]; simpl.
  - intros [= <-]. by exists json.
  - discriminate.
Qed.

Lemma publish_params_Raise self topic message attributes ordering_key e :
  publish_params self topic message attributes ordering_key = Raise e ->
  dumps message = Raise e.
Proof.
  rewrite publish_params_eq. destruct (dumps message) as [json|e']; simpl.
  - discriminate.
  - by intros [= <-].
Qed.

Lemma reserved_data self topic json :
  reserved self topic json !! "data" = Some (PyBytes (str_encode json)).
Proof. unfold reserved. by simplify_map_eq. Qed.

Lemma reserved_project self topic json :
  reserved self topic json !! "project"
  = Some (PyStr (project_id (_connection_conf self))).
Proof. unfold reserved. by simplify_map_eq. Qed.

Lemma reserved_topic self topic json :
  reserved self topic json !! "topic"
  = Some (PyStr (__get_topic_path self topic)).
Proof. unfold reserved. by simplify_map_eq. Qed.

Lemma reserved_ordering_key self topic json :
  reserved self topic json !! "ordering_key" = None.
Proof. unfold reserved. by simplify_map_eq. Qed.

Lemma dict_update_lookup_new d other k v :
  other !! k = Some v -> dict_update d other !! k = Some v.
Proof. intros Hk. unfold dict_update. by apply lookup_union_Some_l. Qed.

Lemma dict_update_lookup_old d other k :
  other !! k = None -> dict_update d other !! k = d !! k.
Proof. intros Hk. unfold dict_update. by apply lookup_union_r. Qed.

(** What [publish] does once the keyword arguments are built. *)
Lemma publish_after_params self topic message attributes ordering_key kw n :
  publish_params self topic message attributes ordering_key = Return kw ->
  forwarded (calls (publish self topic message attributes ordering_key n))
  = [kw].
Proof.
  intros Hp. unfold publish. rewrite Hp.
  destruct (client_publish (_client self) kw n) as [[future|e] n1]; simpl.
  - by destruct (future_result future n1).
  - done.
Qed.

(** A message that serializes reaches the client, with its bytes as data. *)
Lemma publish_forwards self topic message attributes ordering_key json n :
  dumps message = Return json ->
  forwards_payload (publish self topic message attributes ordering_key n) json.
Proof.
  intros Hd.
  exists (dict_update (caller_params attributes ordering_key)
            (reserved self topic json)).
  split.
  - apply publish_after_params. rewrite publish_params_eq, Hd. reflexivity.
  - apply dict_update_lookup_new, reserved_data.
Qed.

(** Where an exception of [publish] comes from. *)
Lemma publish_raise_origin self topic message attributes ordering_key n e :
  value (publish self topic message attributes ordering_key n) = Raise e ->
  raised_outside self topic message attributes ordering_key n e.
Proof.
  unfold publish, raised_outside.
  destruct (publish_params self topic message attributes ordering_key)
    as [kw|e0] eqn:Hp; simpl.
  - destruct (client_publish (_client self) kw n) as [[future|e1] n1] eqn:Hc;
      simpl.
    + destruct (future_result future n1) as [r n2] eqn:Hf; simpl.
      intros ->. right; right. exists kw, future, n1. by rewrite Hf.
    + intros [= ->]. right; left. by exists kw, n1.
  - intros [= ->]. left. by apply publish_params_Raise in Hp.
Qed.

(** ** The configuration *)

(** C7: a configuration constructed without explicit thresholds has
    max_messages = 100 and max_bytes = 1,000,000. *)
Theorem default_batch_thresholds env service_account_file enable_ordering conf :
  PubsubConnectionConf_init env service_account_file enable_ordering None None
  = Return conf ->
  bs_max_messages (bach_settings conf) = 100%Z
  /\ bs_max_bytes (bach_settings conf) = 1000000%Z.
Proof.
  unfold PubsubConnectionConf_init.
  destruct (match service_account_file with
            | Some f => _
            | None => _
            end) as [creds|e]; simpl; [|discriminate].
  destruct (__get_default_env env "GOOGLE_CLOUD_PROJECT") as [p|e]; simpl;
    [|discriminate].
  intros [= <-]. simpl. split; reflexivity.
Qed.



(** ** publish *)


(** C1, as the code has it: once the client has returned a future, publish
    waits on that future before it returns, and what it returns or raises is
    what the future's result() returns or raises: the caller gets the message
    id, not a pending handle. *)
Theorem publish_waits_for_result self topic message attributes ordering_key
    kw n future n1 :
  publish_params self topic message attributes ordering_key = Return kw ->
  client_publish (_client self) kw n = (Return future, n1) ->
  calls (publish self topic message attributes ordering_key n)
  = [CallPublish kw; CallResult future]
  /\ value (publish self topic message attributes ordering_key n)
     = (future_result future n1).1
  /\ net (publish self topic message attributes ordering_key n)
     = (future_result future n1).2.
Proof.
  intros Hp Hc. unfold publish. rewrite Hp, Hc.
  by destruct (future_result future n1).
Qed.

(** C2, as the code has it: publish validates nothing.  An exception it
    raises was raised by json.dumps, by the client's publish or by the
    future's result(); and every message that serializes is forwarded to the
    client, whatever the size of its payload. *)
Theorem publish_has_no_validation self topic message attributes ordering_key
    n :
  (forall e,
     value (publish self topic message attributes ordering_key n) = Raise e ->
     raised_outside self topic message attributes ordering_key n e)
  /\ (forall json,
        dumps message = Return json ->
        forwards_payload
          (publish self topic message attributes ordering_key n) json).
Proof.
  split.
  - intros e. apply publish_raise_origin.
  - intros json. apply publish_forwards.
Qed.

(** C4, as the code has it: publish never compares a payload with max_bytes.
    A message whose serialized size exceeds the configured max_bytes is
    forwarded to the client with all its bytes, an exception can only come
    from the client or its future, and the run is the same under any other
    batch settings. *)
Theorem publish_ignores_max_bytes self topic message attributes ordering_key
    json n :
  dumps message = Return json ->
  (bs_max_bytes (bach_settings (_connection_conf self))
   < Z.of_nat (length (str_encode json)))%Z ->
  forwards_payload (publish self topic message attributes ordering_key n) json
  /\ (forall e,
        value (publish self topic message attributes ordering_key n)
        = Raise e ->
        raised_outside self topic message attributes ordering_key n e
        /\ dumps message <> Raise e)
  /\ (forall bs,
        publish (with_batch_settings bs self) topic message attributes
          ordering_key n
        = publish self topic message attributes ordering_key n).
Proof.
  intros Hd _. split; [|split].
  - by apply publish_forwards.
  - intros e He. split; [by apply publish_raise_origin|congruence].
  - reflexivity.
Qed.

(** C10, as the code has it: the keys project, topic and data of the
    attributes are always overwritten; the key ordering_key is overwritten
    when the ordering_key parameter is a non-empty string, and when that
    parameter is None or empty the attribute's value is forwarded under the
    client's ordering_key keyword and not among the message attributes. *)
Theorem publish_reserved_keywords self topic message attributes ordering_key
    kw :
  publish_params self topic message attributes ordering_key = Return kw ->
  kw !! "project" = Some (PyStr (project_id (_connection_conf self)))
  /\ kw !! "topic" = Some (PyStr (__get_topic_path self topic))
  /\ (exists json,
        dumps message = Return json
        /\ kw !! "data" = Some (PyBytes (str_encode json)))
  /\ (forall k, ordering_key = Some k -> k <> EmptyString ->
        kw !! "ordering_key" = Some (PyStr k))
  /\ (forall a v named,
        (ordering_key = None \/ ordering_key = Some EmptyString) ->
        attributes = Some a -> a !! "ordering_key" = Some v ->
        "ordering_key" ∈ named ->
        bound_params named kw !! "ordering_key" = Some v
        /\ bound_attrs named kw !! "ordering_key" = None).
Proof.
  intros Hp. apply publish_params_Return in Hp as (json & Hd & ->).
  split; [apply dict_update_lookup_new, reserved_project|].
  split; [apply dict_update_lookup_new, reserved_topic|].
  split; [exists json; split; [done|];
          apply dict_update_lookup_new, reserved_data|].
  split.
  - intros k -> Hk.
    rewrite dict_update_lookup_old by apply reserved_ordering_key.
    unfold caller_params. simpl. rewrite bool_decide_true by done.
    apply dict_update_lookup_new. simpl. by simplify_map_eq.
  - intros a v named Hkey -> Ha Hnamed.
    assert (dict_update (caller_params (Some a) ordering_key)
              (reserved self topic json) !! "ordering_key" = Some v) as Hkw.
    { rewrite dict_update_lookup_old by apply reserved_ordering_key.
      assert (truthy_str ordering_key = false) as Hk.
      { by destruct Hkey as [-> | ->]. }
      unfold caller_params. rewrite Hk. simpl. rewrite bool_decide_true.
      - by apply dict_update_lookup_new.
      - intros ->. by rewrite lookup_empty in Ha. }
    split.
    + unfold bound_params. apply map_lookup_filter_Some. by split.
    + unfold bound_attrs. apply map_lookup_filter_None. right.
      intros v' _ Hn. by apply Hn.
Qed.

End PubsubFacts.

(** * The model at work on the loopback platform *)

Module LoopbackFacts.
Import Loopback.

Lemma conf_is_built max_messages max_bytes :
  PubsubConnectionConf_init env None false max_messages max_bytes
  = Return (conf max_messages max_bytes).
Proof. reflexivity. Qed.

Lemma str_encode_app s1 s2 :
  str_encode (s1 +:+ s2) = str_encode s1 ++ str_encode s2.
Proof.
  unfold str_encode, String.list_byte_of_string.
  induction s1 as [|c s1 IH]; simpl; [done|]. by rewrite IH.
Qed.

(** Every nesting depth serializes, to more bytes than its depth. *)
Lemma nest_dumps n :
  exists json, json_dumps (nest n) = Return json
               /\ (n < length (str_encode json))%nat.
Proof.
  induction n as [|n (json & Hd & Hlen)].
  - exists "null". split; [done|]. simpl. lia.
  - exists ("[" +:+ json +:+ "]"). split.
    + simpl. rewrite Hd. reflexivity.
    + rewrite !str_encode_app, !length_app. simpl. lia.
Qed.

(** The loopback broker accepts whatever serializes. *)
Lemma loopback_accepts self topic message attributes ordering_key json n :
  json_dumps message = Return json ->
  value (publish self topic message attributes ordering_key n)
  = Return (pretty (length n)).
Proof.
  intros Hd. unfold publish. rewrite publish_params_eq. simpl.
  rewrite Hd. reflexivity.
Qed.

Example conf_without_project :
  PubsubConnectionConf_init ∅ None false None None
  = Raise (ValueError
      "The default value for GOOGLE_CLOUD_PROJECT was not found in ENV FILE").
Proof. reflexivity. Qed.

(** A key file that does not load raises before the project is looked up. *)
Example conf_unreadable_key_file :
  PubsubConnectionConf_init ∅ (Some "missing.json") false None None
  = Raise (Exn "FileNotFoundError" "missing.json").
Proof. reflexivity. Qed.

Example conf_zero_is_default :
  bach_settings (conf (Some 0%Z) (Some 0%Z))
  = {| bs_max_bytes := 1000000; bs_max_messages := 100 |}.
Proof. reflexivity. Qed.

Example publish_unserializable :
  publish (manager None None) "orders" JSet None None []
  = {| value :=
         Raise (Exn "TypeError" "Object of type set is not JSON serializable");
       net := []; calls := [] |}.
Proof. reflexivity. Qed.

Lemma default_batch_thresholds_witness :
  bs_max_messages (bach_settings (conf None None)) = 100%Z
  /\ bs_max_bytes (bach_settings (conf None None)) = 1000000%Z.
Proof.
  apply (default_batch_thresholds env None false). reflexivity.
Defined.




(** C1 fails on the code: a publish call on the loopback platform does not
    return without waiting: it calls result() on the future it got. *)
Lemma publish_blocks_on_future :
  ~ returns_without_waiting
      (publish (manager None None) "orders" JNull None None []).
Proof.
  unfold returns_without_waiting. intros Hw.
  apply Forall_cons in Hw as [_ Hw]. apply Forall_cons in Hw as [Hw _].
  discriminate Hw.
Qed.

Lemma publish_waits_for_result_witness :
  calls (publish (manager None None) "orders" JNull None None [])
  = [CallPublish orders_kwargs; CallResult (O : @Future platform)]
  /\ value (publish (manager None None) "orders" JNull None None [])
     = (future_result (O : @Future platform) [orders_kwargs]).1
  /\ net (publish (manager None None) "orders" JNull None None [])
     = (future_result (O : @Future platform) [orders_kwargs]).2.
Proof.
  apply (publish_waits_for_result (manager None None) "orders" JNull None None
           orders_kwargs [] (O : @Future platform) [orders_kwargs]).
  - vm_compute. reflexivity.
  - vm_compute. reflexivity.
Defined.

(** C2 fails on the code: whatever the size ceiling, some message whose
    payload exceeds it goes through publish without InvalidMessageError. *)
Lemma no_payload_ceiling :
  ~ exists ceiling : nat,
      forall message json,
        json_dumps message = Return json ->
        (str_encode json = [] \/ (ceiling < length (str_encode json))%nat) ->
        raises
          (value (publish (manager None None) "orders" message None None []))
          "InvalidMessageError".
Proof.
  intros [ceiling Hc].
  destruct (nest_dumps ceiling) as (json & Hd & Hlen).
  destruct (Hc (nest ceiling) json Hd (or_intror Hlen)) as [msg Hr].
  rewrite (loopback_accepts _ _ _ _ _ json) in Hr by exact Hd.
  discriminate Hr.
Qed.

Lemma publish_has_no_validation_witness :
  (forall e,
     value (publish (manager None None) "orders" JSet None None []) = Raise e ->
     raised_outside (manager None None) "orders" JSet None None [] e)
  /\ (forall json,
        json_dumps JSet = Return json ->
        forwards_payload
          (publish (manager None None) "orders" JSet None None []) json).
Proof.
  exact (publish_has_no_validation (manager None None) "orders" JSet None None
           []).
Defined.

(** C4 fails on the code: with max_bytes = 4, a message of 12 bytes is
    published: the client gets it and the call returns its message id. *)
Lemma oversized_message_is_published :
  (bs_max_bytes (bach_settings (_connection_conf (manager None (Some 4%Z))))
   < Z.of_nat (length (str_encode "[null, null]")))%Z
  /\ json_dumps (JList [JNull; JNull]) = Return "[null, null]"
  /\ value (publish (manager None (Some 4%Z)) "orders" (JList [JNull; JNull])
              None None [])
     = Return "0"
  /\ ~ raises
         (value (publish (manager None (Some 4%Z)) "orders"
                   (JList [JNull; JNull]) None None []))
         "PayloadTooLargeError"
  /\ length (forwarded
               (calls (publish (manager None (Some 4%Z)) "orders"
                         (JList [JNull; JNull]) None None [])))
     = 1%nat.
Proof.
  split; [vm_compute; reflexivity|]. split; [reflexivity|].
  split; [reflexivity|]. split; [|reflexivity].
  intros [msg Hr]. discriminate Hr.
Qed.

Lemma publish_ignores_max_bytes_witness :
  forwards_payload
    (publish (manager None (Some 4%Z)) "orders" (JList [JNull; JNull]) None
       None [])
    "[null, null]"
  /\ (forall e,
        value (publish (manager None (Some 4%Z)) "orders"
                 (JList [JNull; JNull]) None None []) = Raise e ->
        raised_outside (manager None (Some 4%Z)) "orders"
          (JList [JNull; JNull]) None None [] e
        /\ json_dumps (JList [JNull; JNull]) <> Raise e)
  /\ (forall bs,
        publish (with_batch_settings bs (manager None (Some 4%Z))) "orders"
          (JList [JNull; JNull]) None None []
        = publish (manager None (Some 4%Z)) "orders" (JList [JNull; JNull])
            None None []).
Proof.
  apply (publish_ignores_max_bytes (manager None (Some 4%Z)) "orders"
           (JList [JNull; JNull]) None None "[null, null]" []).
  - reflexivity.
  - vm_compute. reflexivity.
Defined.

(** C10 fails on the code: with the ordering_key parameter given as the
    empty string, the attribute named ordering_key is not overwritten by it:
    the attribute's value is what reaches the client. *)
Lemma ordering_key_attribute_survives :
  exists kw,
    publish_params (manager None None) "orders" JNull
      (Some {[ "ordering_key" := PyStr "mine" ]}) (Some EmptyString)
    = Return kw
    /\ kw !! "ordering_key" = Some (PyStr "mine")
    /\ kw !! "ordering_key" <> Some (PyStr EmptyString).
Proof.
  eexists. split; [reflexivity|]. split; [by vm_compute|].
  vm_compute. discriminate.
Qed.

Lemma publish_reserved_keywords_witness :
  mine_kwargs !! "project"
  = Some (PyStr (project_id (_connection_conf (manager None None))))
  /\ mine_kwargs !! "topic"
     = Some (PyStr (__get_topic_path (manager None None) "orders"))
  /\ (exists json,
        json_dumps JNull = Return json
        /\ mine_kwargs !! "data" = Some (PyBytes (str_encode json)))
  /\ (forall k, Some EmptyString = Some k -> k <> EmptyString ->
        mine_kwargs !! "ordering_key" = Some (PyStr k))
  /\ (forall (a : gmap string pyval) v named,
        (Some EmptyString = None \/ Some EmptyString = Some EmptyString) ->
        Some ({[ "ordering_key" := PyStr "mine" ]} : gmap string pyval)
        = Some a ->
        a !! "ordering_key" = Some v ->
        "ordering_key" ∈ named ->
        bound_params named mine_kwargs !! "ordering_key" = Some v
        /\ bound_attrs named mine_kwargs !! "ordering_key" = None).
Proof.
  apply (publish_reserved_keywords (manager None None) "orders" JNull
           (Some {[ "ordering_key" := PyStr "mine" ]}) (Some EmptyString)
           mine_kwargs).
  vm_compute. reflexivity.
Defined.

End LoopbackFacts.

(** * Properties of the specified engine *)

Module EngineFacts.
Import Engine.

(** ** Batcher *)

Lemma size_nonneg e : (0 <= size e)%Z.
Proof. unfold size. lia. Qed.


Lemma sum_sizes_nonneg es : (0 <= sum_sizes es)%Z.
Proof.
  unfold sum_sizes. induction es as [|e es IH]; simpl; [lia|].
  pose proof (size_nonneg e). lia.
Qed.








(** The scenarios of the specification's section 8 for the Batcher. *)
Example one_hundred_and_fifty_messages :
  (fun b => length (envelopes b))
    <$> dispatched
          (batcher_run (__set_batch_settings (Some 100%Z) None) 5
             (replicate 150 (Add (envelope_of_size 1) "orders")
                ++ [Timer 9 "orders"]))
  = [100; 50].
Proof. vm_compute. reflexivity. Qed.

Example idle_batch_leaves_on_the_timer :
  (fun ops =>
     (fun b => length (envelopes b))
       <$> dispatched (batcher_run (__set_batch_settings None None) 5 ops))
    <$> [replicate 3 (Add (envelope_of_size 1) "orders") ++ [Timer 5 "orders"];
         replicate 3 (Add (envelope_of_size 1) "orders") ++ [Timer 6 "orders"]]
  = [[]; [3]].
Proof. vm_compute. reflexivity. Qed.

Example oversized_envelope_is_rejected :
  add (__set_batch_settings None (Some 10%Z)) (envelope_of_size 11) "orders"
    new_batcher
  = Raise (Exn "PayloadTooLargeError" "orders").
Proof. reflexivity. Qed.

Example batches_of_the_witness :
  (fun b => (destination b, length (envelopes b), total_bytes b))
    <$> dispatched
          (batcher_run (thresholds narrow) 5 narrow_adds)
  = [("orders", 1%nat, 6%Z); ("invoices", 1%nat, 1%Z);
     ("orders", 2%nat, 7%Z)].
Proof. vm_compute. reflexivity. Qed.


(** ** Result slots *)

Lemma resolve_lookup j o sl i :
  resolve j o sl !! i
  = match sl !! i with
    | Some o' => Some o'
    | None => if decide (i = j) then Some o else None
    end.
Proof.
  unfold resolve. destruct (sl !! j) as [oj|] eqn:Hj.
  - destruct (sl !! i) as [oi|] eqn:Hi; [done|].
    case_decide; [congruence|done].
  - destruct (decide (i = j)) as [->|Hne].
    + by rewrite lookup_insert_eq, Hj.
    + rewrite lookup_insert_ne by done. by destruct (sl !! i).
Qed.

Lemma fail_all_lookup es err sl i :
  fail_all es err sl !! i
  = match sl !! i with
    | Some o => Some o
    | None =>
        if decide (i ∈ result_slot <$> es) then Some (Failure err) else None
    end.
Proof.
  unfold fail_all. revert sl. induction es as [|e es IH]; intros sl.
  - rewrite decide_False by (rewrite fmap_nil; apply not_elem_of_nil).
    simpl. by destruct (sl !! i).
  - change (foldl ?f sl (e :: es)) with (foldl f (f sl e) es). cbv beta.
    rewrite IH, resolve_lookup. destruct (sl !! i) as [o|]; [done|].
    rewrite fmap_cons.
    destruct (decide (i = result_slot e)) as [->|Hne].
    + rewrite decide_True; [done|]. apply elem_of_cons. by left.
    + destruct (decide (i ∈ result_slot <$> es)) as [Hin|Hnin].
      * rewrite decide_True; [done|]. apply elem_of_cons. by right.
      * rewrite decide_False; [done|]. intros Hin.
        apply elem_of_cons in Hin as [?|?]; done.
Qed.

Lemma succeed_pairs_lookup_other (ps : list (MessageEnvelope * string)) sl i :
  i ∉ (fun p => result_slot p.1) <$> ps ->
  foldl (fun sl p => resolve (result_slot p.1) (Success p.2) sl) sl ps !! i
  = sl !! i.
Proof.
  revert sl. induction ps as [|p ps IH]; intros sl Hnin; simpl; [done|].
  rewrite fmap_cons in Hnin. apply not_elem_of_cons in Hnin as [Hne Hnin].
  rewrite IH by done. rewrite resolve_lookup.
  destruct (sl !! i); [done|]. by rewrite decide_False.
Qed.

Lemma succeed_all_lookup_other es ids sl i :
  i ∉ result_slot <$> es -> succeed_all es ids sl !! i = sl !! i.
Proof.
  intros Hnin. unfold succeed_all. apply succeed_pairs_lookup_other.
  intros Hin. apply Hnin. apply list_elem_of_fmap in Hin as (p & -> & Hp).
  apply list_elem_of_fmap. exists p.1. split; [done|].
  destruct p as [e id]. by apply elem_of_zip_l in Hp.
Qed.

(** ** Logs and batches in transit, lane by lane *)

Lemma transit_of_app d k ts1 ts2 :
  transit_of d k (ts1 ++ ts2) = transit_of d k ts1 ++ transit_of d k ts2.
Proof. unfold transit_of. by rewrite filter_app, fmap_app. Qed.

Lemma transit_of_singleton d k d' k' b :
  transit_of d k [(d', k', b)]
  = if decide ((d', k') = (d, k)) then [b] else [].
Proof.
  unfold transit_of. rewrite filter_cons, filter_nil. simpl.
  by destruct (decide ((d', k') = (d, k))).
Qed.

Lemma take_batch_Some d k ts b r :
  take_batch d k ts = Some (b, r) ->
  transit_of d k ts = b :: transit_of d k r
  /\ forall d' k', (d', k') <> (d, k) ->
       transit_of d' k' r = transit_of d' k' ts.
Proof.
  revert b r. induction ts as [|t ts IH]; intros b r; simpl; [done|].
  destruct (decide (t.1 = (d, k))) as [Ht|Ht].
  - intros [= <- <-]. split.
    + unfold transit_of. by rewrite filter_cons_True.
    + intros d' k' Hne. unfold transit_of.
      rewrite filter_cons_False; [done|]. simpl. congruence.
  - destruct (take_batch d k ts) as [[b0 r0]|] eqn:Htake; [|done].
    intros [= <- <-]. destruct (IH b0 r0 eq_refl) as [Hsame Hother]. split.
    + unfold transit_of in *. rewrite filter_cons_False by done.
      rewrite Hsame. by rewrite filter_cons_False.
    + intros d' k' Hne. specialize (Hother d' k' Hne).
      unfold transit_of in *. rewrite !filter_cons.
      destruct (decide (t.1 = (d', k'))); [|done].
      rewrite !fmap_cons. by rewrite Hother.
Qed.

Lemma of_lane_app d k l1 l2 :
  of_lane d k (l1 ++ l2) = of_lane d k l1 ++ of_lane d k l2.
Proof. unfold of_lane. by rewrite filter_app, fmap_app. Qed.

Lemma elem_of_of_lane e d k log :
  e ∈ of_lane d k log <-> (d, e) ∈ log /\ ordering_key e = Some k.
Proof.
  unfold of_lane. rewrite list_elem_of_fmap. split.
  - intros ([d' e'] & -> & Hin). apply list_elem_of_filter in Hin.
    simpl in Hin. destruct Hin as [[-> Hk] Hin]. done.
  - intros [Hin Hk]. exists (d, e). split; [done|].
    apply list_elem_of_filter. done.
Qed.

Lemma of_lane_tagged_same d k es :
  Forall (fun e => ordering_key e = Some k) es ->
  of_lane d k ((fun e => (d, e)) <$> es) = es.
Proof.
  unfold of_lane. induction 1 as [|e es He Hes IH]; [done|].
  rewrite fmap_cons, filter_cons_True by done.
  rewrite fmap_cons. simpl. by rewrite IH.
Qed.

Lemma of_lane_tagged_other d k d' k' es :
  (d', k') <> (d, k) ->
  Forall (fun e => ordering_key e = Some k) es ->
  of_lane d' k' ((fun e => (d, e)) <$> es) = [].
Proof.
  intros Hne. unfold of_lane. induction 1 as [|e es He Hes IH]; [done|].
  rewrite fmap_cons, filter_cons_False; [done|].
  simpl. intros [<- Hk]. rewrite He in Hk. congruence.
Qed.

Lemma of_lane_sublist_log d k log :
  of_lane d k log `sublist_of` log.*2.
Proof. unfold of_lane. apply fmap_sublist, sublist_filter. Qed.

Lemma inv_waiting st d k e :
  lanes_invariant st ->
  e ∈ concat (transit_of d k (transit st)) ++ pending (lane_of st d k) ->
  (d, e) ∈ enqueued st /\ ordering_key e = Some k.
Proof.
  intros Hinv Hin. apply elem_of_of_lane.
  eapply elem_of_sublist; [|apply (inv_order st Hinv d k)].
  apply elem_of_app. by right.
Qed.

Lemma inv_slot_bound st d e :
  lanes_invariant st -> (d, e) ∈ enqueued st ->
  result_slot e < length (enqueued st).
Proof.
  intros Hinv Hin.
  assert (result_slot e ∈ result_slot <$> (enqueued st).*2) as Hs.
  { apply list_elem_of_fmap. exists e. split; [done|].
    apply list_elem_of_fmap. by exists (d, e). }
  rewrite (inv_slots st Hinv) in Hs. apply elem_of_seq in Hs. lia.
Qed.

Lemma NoDup_fmap_eq {A B} (f : A -> B) (l : list A) x y :
  NoDup (f <$> l) -> x ∈ l -> y ∈ l -> f x = f y -> x = y.
Proof.
  induction l as [|a l IH]; intros Hnd Hx Hy Hf; [by apply elem_of_nil in Hx|].
  rewrite fmap_cons in Hnd. apply NoDup_cons in Hnd as [Ha Hnd].
  apply elem_of_cons in Hx as [->|Hx]; apply elem_of_cons in Hy as [->|Hy].
  - done.
  - exfalso. apply Ha. rewrite Hf. by apply list_elem_of_fmap_2.
  - exfalso. apply Ha. rewrite <- Hf. by apply list_elem_of_fmap_2.
  - by apply IH.
Qed.

Lemma inv_slot_inj st d e d' e' :
  lanes_invariant st ->
  (d, e) ∈ enqueued st -> (d', e') ∈ enqueued st ->
  result_slot e = result_slot e' -> d = d' /\ e = e'.
Proof.
  intros Hinv Hin Hin' Hs.
  assert (NoDup ((fun p => result_slot p.2) <$> enqueued st)) as Hnd.
  { assert ((fun p => result_slot p.2) <$> enqueued st
            = result_slot <$> (enqueued st).*2) as ->
      by (by rewrite <- list_fmap_compose).
    rewrite (inv_slots st Hinv). apply NoDup_seq. }
  pose proof (NoDup_fmap_eq _ _ (d, e) (d', e') Hnd Hin Hin' Hs) as Heq.
  by injection Heq.
Qed.

Lemma inv_waiting_NoDup st d k :
  lanes_invariant st ->
  NoDup (result_slot
           <$> (of_lane d k (sink_log st)
                  ++ concat (transit_of d k (transit st))
                  ++ pending (lane_of st d k))).
Proof.
  intros Hinv.
  eapply sublist_NoDup; [|apply fmap_sublist, (inv_order st Hinv d k)].
  eapply sublist_NoDup;
    [|apply fmap_sublist, (of_lane_sublist_log d k (enqueued st))].
  rewrite (inv_slots st Hinv). apply NoDup_seq.
Qed.

Lemma lane_of_update st st' d k l d' k' :
  lanes st' = <[(d, k) := l]> (lanes st) ->
  lane_of st' d' k'
  = if decide ((d, k) = (d', k')) then l else lane_of st d' k'.
Proof.
  intros Hl. unfold lane_of. rewrite Hl.
  destruct (decide ((d, k) = (d', k'))) as [<-|Hne].
  - by rewrite lookup_insert_eq.
  - by rewrite lookup_insert_ne.
Qed.

Lemma new_system_invariant : lanes_invariant new_system.
Proof.
  split.
  - done.
  - intros d k. apply sublist_nil_l.
  - intros d k e Hin. unfold lane_of in Hin. simpl in Hin.
    rewrite lookup_empty in Hin. by apply elem_of_nil in Hin.
  - done.
  - intros i [o Ho]. simpl in Ho. by rewrite lookup_empty in Ho.
Qed.

Lemma enqueue_invariant dest k data attrs now st :
  lanes_invariant st ->
  lanes_invariant (do_enqueue dest k data attrs now st).
Proof.
  intros Hinv. unfold do_enqueue.
  set (e := {| payload := data; attributes := attrs; ordering_key := Some k;
               created_at := now; result_slot := length (enqueued st) |}).
  set (st' := {| lanes := _ |}).
  assert (forall d' k',
            lane_of st' d' k'
            = if decide ((dest, k) = (d', k'))
              then enqueue e (lane_of st dest k) else lane_of st d' k')
    as Hlane.
  { intros d' k'. by apply lane_of_update. }
  split.
  - intros d' k'. rewrite Hlane. simpl.
    destruct (decide _) as [[= <- <-]|Hne]; simpl; apply (inv_flag st Hinv).
  - intros d' k'. rewrite Hlane. simpl. rewrite of_lane_app.
    destruct (decide _) as [[= <- <-]|Hne]; simpl.
    + change [(dest, e)] with ((fun e => (dest, e)) <$> [e]).
      rewrite (of_lane_tagged_same dest k [e])
        by (by apply Forall_singleton).
      rewrite !app_assoc. apply sublist_app; [|done].
      rewrite <- app_assoc. apply (inv_order st Hinv).
    + change [(dest, e)] with ((fun e => (dest, e)) <$> [e]).
      rewrite (of_lane_tagged_other dest k d' k' [e]);
        [|congruence|by apply Forall_singleton].
      rewrite app_nil_r. apply (inv_order st Hinv).
  - intros d' k' e'. rewrite Hlane. simpl.
    destruct (decide _) as [[= <- <-]|Hne]; simpl.
    + rewrite app_assoc. intros Hin.
      apply elem_of_app in Hin as [Hin|Hin].
      * by apply (inv_unresolved st Hinv dest k).
      * apply list_elem_of_singleton in Hin as ->. simpl.
        destruct (slots st !! length (enqueued st)) as [o|] eqn:Ho; [|done].
        assert (length (enqueued st) < length (enqueued st)); [|lia].
        apply (inv_resolved st Hinv). by exists o.
    + apply (inv_unresolved st Hinv d' k').
  - simpl. rewrite !fmap_app, length_app, seq_app, (inv_slots st Hinv).
    done.
  - intros i Hi. simpl in *. rewrite length_app.
    pose proof (inv_resolved st Hinv i Hi). lia.
Qed.

Lemma try_dispatch_Some cfg l prefix l' :
  try_dispatch cfg l = Some (prefix, l') ->
  in_flight l = false /\ in_flight l' = true
  /\ prefix ++ pending l' = pending l.
Proof.
  unfold try_dispatch. destruct (in_flight l); [done|].
  destruct (pending l) as [|e r]; [done|].
  intros [= <- <-]. simpl. split; [done|]. split; [done|].
  by rewrite take_drop.
Qed.

Lemma dispatch_invariant s dest k st :
  lanes_invariant st -> lanes_invariant (do_dispatch s dest k st).
Proof.
  intros Hinv. unfold do_dispatch.
  destruct (try_dispatch (thresholds s) (lane_of st dest k))
    as [[prefix l]|] eqn:Htry; [|done].
  apply try_dispatch_Some in Htry as (Hidle & Hbusy & Hsplit).
  set (st' := {| lanes := _ |}).
  assert (forall d' k',
            lane_of st' d' k'
            = if decide ((dest, k) = (d', k')) then l else lane_of st d' k')
    as Hlane.
  { intros d' k'. by apply lane_of_update. }
  pose proof (inv_flag st Hinv dest k) as Hflag. rewrite Hidle in Hflag.
  apply length_zero_iff_nil in Hflag.
  split.
  - intros d' k'. rewrite Hlane. simpl.
    rewrite transit_of_app, transit_of_singleton, length_app.
    destruct (decide _) as [[= <- <-]|Hne]; simpl.
    + rewrite Hflag, Hbusy. done.
    + rewrite (inv_flag st Hinv d' k'). lia.
  - intros d' k'. rewrite Hlane. simpl.
    rewrite transit_of_app, transit_of_singleton.
    destruct (decide _) as [[= <- <-]|Hne]; simpl.
    + rewrite Hflag. simpl. rewrite app_nil_r, Hsplit.
      pose proof (inv_order st Hinv dest k) as Ho.
      by rewrite Hflag in Ho.
    + rewrite app_nil_r. apply (inv_order st Hinv).
  - intros d' k' e. rewrite Hlane. simpl.
    rewrite transit_of_app, transit_of_singleton.
    destruct (decide _) as [[= <- <-]|Hne]; simpl.
    + rewrite Hflag. simpl. rewrite app_nil_r, Hsplit. intros Hin.
      apply (inv_unresolved st Hinv dest k). rewrite Hflag. done.
    + rewrite app_nil_r. apply (inv_unresolved st Hinv).
  - apply (inv_slots st Hinv).
  - apply (inv_resolved st Hinv).
Qed.

Lemma reclaim_invariant dest k st :
  lanes_invariant st -> lanes_invariant (do_reclaim dest k st).
Proof.
  intros Hinv. unfold do_reclaim.
  destruct (lanes st !! (dest, k)) as [l|] eqn:Hl; [|done].
  case_decide as Hidle; [|done]. destruct Hidle as [Hpend Hflag].
  set (st' := {| lanes := _ |}).
  assert (forall d' k',
            pending (lane_of st' d' k') = pending (lane_of st d' k')
            /\ in_flight (lane_of st' d' k') = in_flight (lane_of st d' k'))
    as Hlane.
  { intros d' k'. unfold lane_of. simpl.
    destruct (decide ((dest, k) = (d', k'))) as [[= <- <-]|Hne].
    - rewrite lookup_delete_eq, Hl. simpl. by rewrite Hpend, Hflag.
    - by rewrite lookup_delete_ne. }
  split.
  - intros d' k'. destruct (Hlane d' k') as [_ ->]. apply (inv_flag st Hinv).
  - intros d' k'. destruct (Hlane d' k') as [-> _]. apply (inv_order st Hinv).
  - intros d' k' e. destruct (Hlane d' k') as [-> _].
    apply (inv_unresolved st Hinv).
  - apply (inv_slots st Hinv).
  - apply (inv_resolved st Hinv).
Qed.

(** The result slots after a Sender call completed: a slot that belongs
    neither to the batch nor to an aborted envelope is as before. *)
Lemma completed_slots_untouched s r batch pend sl i :
  i ∉ result_slot <$> (batch ++ (if aborts s r then pend else [])) ->
  match r with
  | Delivered ids => succeed_all batch ids sl
  | Failed e =>
      let sl' := fail_all batch (SendError e) sl in
      if aborts s r then fail_all pend OrderingLaneAbortedError sl' else sl'
  end !! i = sl !! i.
Proof.
  rewrite fmap_app. intros Hnin.
  apply not_elem_of_app in Hnin as [Hbatch Hpend].
  destruct r as [ids|e].
  - by apply succeed_all_lookup_other.
  - cbv zeta. destruct (aborts s (Failed e)).
    + rewrite !fail_all_lookup. destruct (sl !! i); [done|].
      by rewrite !decide_False.
    + rewrite fail_all_lookup. destruct (sl !! i); [done|].
      by rewrite decide_False.
Qed.

Lemma complete_invariant s dest k st :
  lanes_invariant st -> lanes_invariant (do_complete s dest k st).
Proof.
  intros Hinv. unfold do_complete.
  destruct (take_batch dest k (transit st)) as [[batch rest]|] eqn:Htake;
    [|done].
  destruct (send s (pred (max_attempt s)) (sink_calls st) dest batch)
    as [calls r] eqn:Hsend.
  apply take_batch_Some in Htake as [Hsame Hother].
  pose proof (inv_flag st Hinv dest k) as Hflag. rewrite Hsame in Hflag.
  destruct (in_flight (lane_of st dest k)) eqn:Hbusy; [|done].
  assert (transit_of dest k rest = []) as Hrest.
  { apply length_zero_iff_nil. simpl in Hflag. lia. }
  rewrite Hrest in Hsame.
  set (l := lane_of st dest k) in *.
  set (st' := {| lanes := _ |}).
  assert (forall d' k',
            lane_of st' d' k'
            = if decide ((dest, k) = (d', k'))
              then on_complete (aborts s r) l else lane_of st d' k')
    as Hlane.
  { intros d' k'. by apply lane_of_update. }
  assert (forall e, e ∈ batch ++ pending l ->
            (dest, e) ∈ enqueued st /\ ordering_key e = Some k) as Hmine.
  { intros e He. apply (inv_waiting st dest k e Hinv).
    rewrite Hsame. simpl. by rewrite app_nil_r. }
  assert (Forall (fun e => ordering_key e = Some k) batch) as Hkeys.
  { apply Forall_forall. intros e He. apply Hmine, elem_of_app. by left. }
  assert (forall i,
            i ∉ result_slot
                  <$> (batch ++ (if aborts s r then pending l else [])) ->
            slots st' !! i = slots st !! i) as Hslots.
  { intros i Hi. by apply completed_slots_untouched. }
  assert (forall i,
            i ∈ result_slot
                  <$> (batch ++ (if aborts s r then pending l else [])) ->
            exists e, e ∈ batch ++ pending l /\ result_slot e = i)
    as Htouched.
  { intros i Hi. apply list_elem_of_fmap in Hi as (e & -> & He).
    exists e. split; [|done]. apply elem_of_app in He as [He|He].
    - apply elem_of_app. by left.
    - destruct (aborts s r); [|by apply elem_of_nil in He].
      apply elem_of_app. by right. }
  split.
  - intros d' k'. rewrite Hlane. simpl.
    destruct (decide _) as [[= <- <-]|Hne]; simpl.
    + by rewrite Hrest.
    + rewrite Hother by congruence. apply (inv_flag st Hinv).
  - intros d' k'. rewrite Hlane. simpl.
    destruct (decide _) as [[= <- <-]|Hne]; simpl.
    + rewrite Hrest. simpl.
      pose proof (inv_order st Hinv dest k) as Ho. rewrite Hsame in Ho.
      simpl in Ho. rewrite app_nil_r in Ho. fold l in Ho.
      destruct r as [ids|e]; simpl.
      * rewrite of_lane_app, of_lane_tagged_same by done.
        by rewrite <- app_assoc.
      * etrans; [|exact Ho]. apply sublist_app; [done|].
        apply sublist_inserts_l.
        destruct e; simpl; [destruct (abort_on_exhaustion s)|];
          apply sublist_nil_l || done.
    + rewrite Hother by congruence.
      assert (of_lane d' k'
                match r with
                | Delivered _ =>
                    sink_log st ++ ((fun e => (dest, e)) <$> batch)
                | Failed _ => sink_log st
                end = of_lane d' k' (sink_log st)) as ->.
      { destruct r; [|done]. rewrite of_lane_app.
        rewrite (of_lane_tagged_other dest k d' k' batch)
          by (done || congruence).
        by rewrite app_nil_r. }
      apply (inv_order st Hinv).
  - intros d' k' e. rewrite Hlane.
    change (transit st') with rest.
    destruct (decide _) as [[= <- <-]|Hne].
    + rewrite Hrest. simpl. intros He.
      destruct (aborts s r) eqn:Hab; [by apply elem_of_nil in He|].
      rewrite Hslots.
      * apply (inv_unresolved st Hinv dest k). rewrite Hsame. simpl.
        rewrite app_nil_r. apply elem_of_app. by right.
      * rewrite app_nil_r. intros Hin.
        pose proof (inv_waiting_NoDup st dest k Hinv) as Hnd.
        rewrite Hsame in Hnd. simpl in Hnd. rewrite app_nil_r in Hnd.
        rewrite !fmap_app in Hnd.
        apply NoDup_app in Hnd as (_ & _ & Hnd).
        apply NoDup_app in Hnd as (_ & Hdisj & _).
        apply (Hdisj _ Hin). by apply list_elem_of_fmap_2.
    + rewrite Hother by congruence. intros He.
      rewrite Hslots; [by apply (inv_unresolved st Hinv d' k')|].
      intros Hin. apply Htouched in Hin as (e1 & He1 & Hs).
      apply Hmine in He1 as [He1 Hk1].
      apply (inv_waiting st d' k' e Hinv) in He as [He Hk].
      destruct (inv_slot_inj st dest e1 d' e Hinv He1 He Hs) as [<- <-].
      congruence.
  - apply (inv_slots st Hinv).
  - intros i Hi. change (enqueued st') with (enqueued st).
    destruct (decide (i ∈ result_slot
                <$> (batch ++ (if aborts s r then pending l else []))))
      as [Hin|Hnin].
    + apply Htouched in Hin as (e & He & <-).
      apply Hmine in He as [He _]. by apply (inv_slot_bound st dest e).
    + rewrite Hslots in Hi by done. by apply (inv_resolved st Hinv).
Qed.

Lemma step_invariant s st o :
  lanes_invariant st -> lanes_invariant (step s st o).
Proof.
  intros Hinv. destruct o; simpl.
  - unfold publish_keyed. case_decide; [done|]. by apply enqueue_invariant.
  - by apply dispatch_invariant.
  - by apply complete_invariant.
  - by apply reclaim_invariant.
Qed.

Lemma run_ops_invariant s ops : lanes_invariant (run_ops s ops).
Proof.
  unfold run_ops. generalize new_system_invariant. generalize new_system.
  induction ops as [|o ops IH]; intros st Hst; simpl; [done|].
  apply IH. by apply step_invariant.
Qed.

Lemma take_batch_first d k ts b bs :
  transit_of d k ts = b :: bs -> exists r, take_batch d k ts = Some (b, r).
Proof.
  induction ts as [|t ts IH]; simpl; [done|].
  unfold transit_of. rewrite filter_cons.
  destruct (decide (t.1 = (d, k))) as [Ht|Ht].
  - rewrite fmap_cons. intros [= <- _]. by exists ts.
  - intros Hts. destruct (IH Hts) as [r ->]. by eexists.
Qed.

Lemma elem_of_transit_of d k b ts :
  (d, k, b) ∈ ts -> b ∈ transit_of d k ts.
Proof.
  intros Hin. unfold transit_of. apply list_elem_of_fmap.
  exists (d, k, b). split; [done|]. by apply list_elem_of_filter.
Qed.

Lemma filter_length_le {A} (P Q : A -> Prop) `{forall x, Decision (P x)}
    `{forall x, Decision (Q x)} (l : list A) :
  (forall x, x ∈ l -> P x -> Q x) ->
  length (filter P l) <= length (filter Q l).
Proof.
  induction l as [|x l IH]; intros Himp; [done|].
  rewrite !filter_cons.
  assert (length (filter P l) <= length (filter Q l)) as Hle.
  { apply IH. intros y Hy. apply Himp. by right. }
  destruct (decide (P x)) as [HP|HP].
  - rewrite decide_True by (apply Himp; [by left|done]). simpl. lia.
  - destruct (decide (Q x)); simpl; lia.
Qed.

Lemma elem_of_concat {A} (x : A) (ls : list (list A)) :
  x ∈ concat ls <-> exists l, x ∈ l /\ l ∈ ls.
Proof.
  induction ls as [|l0 ls IH]; simpl.
  - split; [intros Hx; by apply elem_of_nil in Hx|].
    intros (l & _ & Hl). by apply elem_of_nil in Hl.
  - rewrite elem_of_app, IH. split.
    + intros [Hx|(l & Hx & Hl)].
      * exists l0. split; [done|by left].
      * exists l. split; [done|by right].
    + intros (l & Hx & Hl). apply elem_of_cons in Hl as [->|Hl].
      * by left.
      * right. by exists l.
Qed.

(** Every batch in transit holds envelopes of its own lane only. *)
Lemma transit_keys st d k b e :
  lanes_invariant st -> (d, k, b) ∈ transit st -> e ∈ b ->
  ordering_key e = Some k.
Proof.
  intros Hinv Hb He.
  apply (inv_waiting st d k e Hinv). apply elem_of_app. left.
  apply elem_of_concat. exists b. split; [done|].
  by apply elem_of_transit_of.
Qed.

(** ** Nothing is lost when the sink accepts every batch *)

Lemma send_accepted s retries calls dest batch :
  always_accepts s ->
  exists ids, send s retries calls dest batch = (S calls, Delivered ids).
Proof.
  intros Hacc. destruct (Hacc calls dest batch) as [ids Hids].
  exists ids. destruct retries; simpl; by rewrite Hids.
Qed.

Lemma step_nothing_lost s st o :
  always_accepts s -> lanes_invariant st -> nothing_lost st ->
  nothing_lost (step s st o).
Proof.
  intros Hacc Hinv Hall.
  destruct o as [dest k data attrs now|dest k|dest k|dest k]; simpl.
  - unfold publish_keyed. case_decide; [done|]. unfold do_enqueue.
    set (e := {| payload := data; attributes := attrs; ordering_key := Some k;
                 created_at := now; result_slot := length (enqueued st) |}).
    set (st' := {| lanes := _ |}). intros d' k'.
    rewrite (lane_of_update st st' dest k (enqueue e (lane_of st dest k)))
      by done.
    simpl. rewrite of_lane_app.
    destruct (decide _) as [[= <- <-]|Hne]; simpl.
    + change [(dest, e)] with ((fun e => (dest, e)) <$> [e]).
      rewrite (of_lane_tagged_same dest k [e])
        by (by apply Forall_singleton).
      by rewrite <- Hall, <- !app_assoc.
    + change [(dest, e)] with ((fun e => (dest, e)) <$> [e]).
      rewrite (of_lane_tagged_other dest k d' k' [e]);
        [|congruence|by apply Forall_singleton].
      rewrite app_nil_r. apply Hall.
  - unfold do_dispatch.
    destruct (try_dispatch (thresholds s) (lane_of st dest k))
      as [[prefix l]|] eqn:Htry; [|done].
    apply try_dispatch_Some in Htry as (Hidle & Hbusy & Hsplit).
    pose proof (inv_flag st Hinv dest k) as Hflag. rewrite Hidle in Hflag.
    apply length_zero_iff_nil in Hflag.
    set (st' := {| lanes := _ |}). intros d' k'.
    rewrite (lane_of_update st st' dest k l) by done. simpl.
    rewrite transit_of_app, transit_of_singleton.
    destruct (decide _) as [[= <- <-]|Hne]; simpl.
    + rewrite Hflag. simpl. rewrite app_nil_r, Hsplit, <- Hall.
      by rewrite Hflag.
    + rewrite app_nil_r. apply Hall.
  - unfold do_complete.
    destruct (take_batch dest k (transit st)) as [[batch rest]|] eqn:Htake;
      [|done].
    destruct (send_accepted s (pred (max_attempt s)) (sink_calls st) dest
                batch Hacc) as [ids ->].
    apply take_batch_Some in Htake as [Hsame Hother].
    pose proof (inv_flag st Hinv dest k) as Hflag. rewrite Hsame in Hflag.
    assert (transit_of dest k rest = []) as Hrest.
    { apply length_zero_iff_nil. simpl in Hflag.
      destruct (in_flight _); lia. }
    rewrite Hrest in Hsame.
    assert (Forall (fun e => ordering_key e = Some k) batch) as Hkeys.
    { apply Forall_forall. intros e He.
      apply (inv_waiting st dest k e Hinv). rewrite Hsame. simpl.
      rewrite app_nil_r. apply elem_of_app. by left. }
    set (st' := {| lanes := _ |}). intros d' k'.
    rewrite (lane_of_update st st' dest k
               (on_complete false (lane_of st dest k))) by done.
    simpl. rewrite of_lane_app.
    destruct (decide _) as [[= <- <-]|Hne]; simpl.
    + rewrite Hrest, of_lane_tagged_same by done. simpl.
      rewrite <- Hall, Hsame. simpl. by rewrite app_nil_r, <- app_assoc.
    + rewrite Hother by congruence.
      rewrite (of_lane_tagged_other dest k d' k' batch)
        by (done || congruence).
      rewrite app_nil_r. apply Hall.
  - unfold do_reclaim.
    destruct (lanes st !! (dest, k)) as [l|] eqn:Hl; [|done].
    case_decide as Hidle; [|done]. destruct Hidle as [Hpend Hflag].
    intros d' k'. rewrite <- Hall. simpl. do 2 f_equal.
    unfold lane_of. simpl.
    destruct (decide ((dest, k) = (d', k'))) as [[= <- <-]|Hne].
    + rewrite lookup_delete_eq, Hl. simpl. by rewrite Hpend.
    + by rewrite lookup_delete_ne.
Qed.

Lemma run_ops_nothing_lost s ops :
  always_accepts s -> nothing_lost (run_ops s ops).
Proof.
  intros Hacc. unfold run_ops.
  assert (nothing_lost new_system) as Hinit by (intros d k; done).
  revert Hinit. generalize new_system_invariant. generalize new_system.
  induction ops as [|o ops IH]; intros st Hinv Hall; simpl; [done|].
  apply IH; [by apply step_invariant | by apply step_nothing_lost].
Qed.

(** ** The thresholds on the lanes *)









(** An envelope of 11 bytes with an ordering key is rejected under
    max_bytes = 10, and envelopes of 6, 6 and 3 bytes leave the lane as the
    prefixes [6] and [6; 3]. *)
Example oversized_keyed_envelope_is_rejected :
  publish_keyed narrow "orders" "k" (replicate 11 "x"%byte) ∅ 1 new_system
  = Raise (Exn "PayloadTooLargeError" "orders").
Proof. reflexivity. Qed.

Example prefixes_of_the_witness :
  (fun st : System =>
     (length (enqueued st),
      (fun t : string * string * list MessageEnvelope => size <$> t.2)
        <$> transit st,
      size <$> (sink_log st).*2))
    <$> [run_ops narrow (take 5 narrow_ops);
         run_ops narrow (narrow_ops ++ [Dispatch "orders" "k"])]
  = [(3, [[6%Z]], []); (3, [[6%Z; 3%Z]], [6%Z])].
Proof. vm_compute. reflexivity. Qed.

(** ** The ordering claims *)

(** C3, as sections 4.2 and 4.4 have it: for every run and every lane, that
    is every destination and ordering key, the sink accepts the lane's
    envelopes in enqueue order (all of them, with those in transit and
    pending, when the sink refuses nothing), and at most one batch for that
    destination with envelopes of that key is in transit. *)
Theorem lane_order s ops dest k :
  of_lane dest k (sink_log (run_ops s ops))
    `sublist_of` of_lane dest k (enqueued (run_ops s ops))
  /\ (always_accepts s ->
      of_lane dest k (sink_log (run_ops s ops))
        ++ concat (transit_of dest k (transit (run_ops s ops)))
        ++ pending (lane_of (run_ops s ops) dest k)
      = of_lane dest k (enqueued (run_ops s ops)))
  /\ length (transit_with dest k (transit (run_ops s ops))) <= 1.
Proof.
  pose proof (run_ops_invariant s ops) as Hinv.
  split; [|split].
  - etrans; [|apply (inv_order _ Hinv dest k)]. by apply sublist_inserts_r.
  - intros Hacc. apply (run_ops_nothing_lost s ops Hacc).
  - set (st := run_ops s ops) in *.
    etrans; [apply (filter_length_le _ (fun t => t.1 = (dest, k)))|].
    + intros [[d' k'] b] Hin [Hd Hex]. simpl in *. subst d'.
      apply Exists_exists in Hex as (e & He & Hk).
      rewrite (transit_keys st dest k' b e Hinv Hin He) in Hk. congruence.
    + pose proof (inv_flag st Hinv dest k) as Hflag.
      unfold transit_of in Hflag. rewrite length_fmap in Hflag.
      rewrite Hflag. destruct (in_flight _); lia.
Qed.

(** A permanent refusal ends the Sender call at the first attempt. *)
Lemma send_refused_for_good s retries calls dest batch m :
  send_batch s calls dest batch = Refused (PermanentSendError m) ->
  send s retries calls dest batch = (S calls, Failed (PermanentSendError m)).
Proof. intros Hsink. destruct retries; simpl; by rewrite Hsink. Qed.

(** C5, for one lane: when the Sender call for the batch of a lane that is
    in transit ends with a permanent error of the sink, every envelope of
    the batch resolves with that error, every envelope still pending in the
    lane, that is for the same destination and ordering key, resolves with
    OrderingLaneAbortedError, the lane is left empty and the sink has
    accepted nothing: no successor is sent.  Every other lane, also one of
    the same ordering key for another destination, is as it was and its
    pending envelopes stay unresolved. *)
Theorem lane_aborts_on_permanent_failure s ops dest k batch calls m :
  batch ∈ transit_of dest k (transit (run_ops s ops)) ->
  send s (pred (max_attempt s)) (sink_calls (run_ops s ops)) dest batch
  = (calls, Failed (PermanentSendError m)) ->
  (forall e, e ∈ batch ->
     slots (do_complete s dest k (run_ops s ops)) !! result_slot e
     = Some (Failure (SendError (PermanentSendError m))))
  /\ (forall e, e ∈ pending (lane_of (run_ops s ops) dest k) ->
        slots (do_complete s dest k (run_ops s ops)) !! result_slot e
        = Some (Failure OrderingLaneAbortedError))
  /\ pending (lane_of (do_complete s dest k (run_ops s ops)) dest k) = []
  /\ sink_log (do_complete s dest k (run_ops s ops))
     = sink_log (run_ops s ops)
  /\ sink_calls (do_complete s dest k (run_ops s ops)) = calls
  /\ (forall d' k',
        (d', k') <> (dest, k) ->
        lane_of (do_complete s dest k (run_ops s ops)) d' k'
        = lane_of (run_ops s ops) d' k'
        /\ forall e,
             e ∈ pending (lane_of (run_ops s ops) d' k') ->
             slots (do_complete s dest k (run_ops s ops)) !! result_slot e
             = None).
Proof.
  pose proof (run_ops_invariant s ops) as Hinv.
  set (st := run_ops s ops) in *. intros Hbatch Hsend.
  pose proof (complete_invariant s dest k st Hinv) as Hinv'.
  pose proof (inv_flag st Hinv dest k) as Hflag.
  destruct (transit_of dest k (transit st)) as [|b bs] eqn:Hts;
    [by apply elem_of_nil in Hbatch|].
  assert (bs = []) as ->.
  { apply length_zero_iff_nil. simpl in Hflag. destruct (in_flight _); lia. }
  apply list_elem_of_singleton in Hbatch as <-.
  destruct (take_batch_first dest k (transit st) batch [] Hts) as [rest Htake].
  pose proof (inv_waiting_NoDup st dest k Hinv) as Hnd.
  rewrite Hts in Hnd. simpl in Hnd. rewrite app_nil_r, !fmap_app in Hnd.
  apply NoDup_app in Hnd as (_ & _ & Hnd).
  apply NoDup_app in Hnd as (_ & Hdisj & _).
  assert (forall e, e ∈ batch ++ pending (lane_of st dest k) ->
            slots st !! result_slot e = None) as Hfree.
  { intros e He. apply (inv_unresolved st Hinv dest k). rewrite Hts. simpl.
    by rewrite app_nil_r. }
  assert (forall d' k', (d', k') <> (dest, k) ->
            lane_of (do_complete s dest k st) d' k' = lane_of st d' k')
    as Hother.
  { intros d' k' Hne. unfold do_complete. rewrite Htake, Hsend.
    unfold lane_of. simpl. rewrite lookup_insert_ne; [done|congruence]. }
  split; [|split; [|split; [|split; [|split]]]].
  - unfold do_complete. rewrite Htake, Hsend. simpl.
    intros e He. rewrite !fail_all_lookup.
    rewrite Hfree by (apply elem_of_app; by left).
    rewrite decide_True by (by apply list_elem_of_fmap_2). done.
  - unfold do_complete. rewrite Htake, Hsend. simpl.
    intros e He. rewrite !fail_all_lookup.
    rewrite Hfree by (apply elem_of_app; by right).
    rewrite decide_False.
    + rewrite decide_True by (by apply list_elem_of_fmap_2). done.
    + intros Hin. apply (Hdisj _ Hin). by apply list_elem_of_fmap_2.
  - unfold do_complete. rewrite Htake, Hsend.
    unfold lane_of. simpl. by rewrite lookup_insert_eq.
  - unfold do_complete. by rewrite Htake, Hsend.
  - unfold do_complete. by rewrite Htake, Hsend.
  - intros d' k' Hne. split; [by apply Hother|].
    intros e He. apply (inv_unresolved _ Hinv' d' k').
    apply elem_of_app. right. by rewrite Hother.
Qed.

(** C3 fails when read by ordering key alone: two destinations share the
    key k, their lanes are two, so two batches with envelopes of the key are
    in transit together, and completed in the other order they reach the
    sink in the other order. *)
Lemma one_key_two_destinations :
  ~ key_in_order (run_ops accepting two_destinations) "k"
  /\ ~ key_in_order
         (run_ops accepting
            (two_destinations
               ++ [Complete "invoices" "k"; Complete "orders" "k"])) "k".
Proof.
  split.
  - intros [_ Hlen]. vm_compute in Hlen. lia.
  - intros [Hsub _].
    apply (fmap_sublist result_slot) in Hsub. vm_compute in Hsub.
    apply sublist_cons_l in Hsub as (l1 & l2 & Heq & Hsub).
    destruct l1 as [|x [|y [|z l1]]]; simplify_eq/=.
    by apply sublist_nil_r in Hsub.
Qed.

Example two_destinations_observed :
  (fun p => (p.1, result_slot p.2))
    <$> sink_log
          (run_ops accepting
             (two_destinations
                ++ [Complete "invoices" "k"; Complete "orders" "k"]))
  = [("invoices", 1); ("orders", 0)].
Proof. vm_compute. reflexivity. Qed.

Example five_messages_scenario :
  (fun i =>
     slots (do_complete refusing_first "orders" "k"
              (run_ops refusing_first five_messages)) !! i)
    <$> [0; 1; 2; 3; 4; 5]
  = [Some (Failure (SendError (PermanentSendError "malformed request")));
     Some (Failure OrderingLaneAbortedError);
     Some (Failure OrderingLaneAbortedError);
     Some (Failure OrderingLaneAbortedError);
     Some (Failure OrderingLaneAbortedError);
     None].
Proof. vm_compute. reflexivity. Qed.

(** C5 fails when read by ordering key alone: the batch of the lane for
    orders and the key k is in transit and its Sender call ends with a
    permanent error, but the envelope of the same key that is queued for
    invoices is in another lane and is not failed. *)
Lemma same_key_other_destination :
  [envelope 0]
    ∈ transit_of "orders" "k"
        (transit (run_ops refusing_first two_lanes_one_key))
  /\ send refusing_first (pred (max_attempt refusing_first))
       (sink_calls (run_ops refusing_first two_lanes_one_key)) "orders"
       [envelope 0]
     = (1, Failed (PermanentSendError "malformed request"))
  /\ ~ key_aborted refusing_first
         (run_ops refusing_first two_lanes_one_key) "orders" "k".
Proof.
  split; [vm_compute; apply list_elem_of_here|]. split; [reflexivity|].
  intros Hall. specialize (Hall (envelope 1)).
  assert (envelope 1
            ∈ queued_with_key (run_ops refusing_first two_lanes_one_key) "k")
    as Hin.
  { vm_compute. repeat constructor. }
  apply Hall in Hin. vm_compute in Hin. discriminate.
Qed.

Example same_key_other_destination_observed :
  (fun ops =>
     (fun i => slots (run_ops refusing_first ops) !! i) <$> [0; 1; 2])
    <$> [two_lanes_one_key ++ [Complete "orders" "k"];
         two_lanes_one_key
           ++ [Complete "orders" "k"; Dispatch "invoices" "k";
               Complete "invoices" "k"]]
  = [[Some (Failure (SendError (PermanentSendError "malformed request")));
      None;
      Some (Failure OrderingLaneAbortedError)];
     [Some (Failure (SendError (PermanentSendError "malformed request")));
      Some (Success "1");
      Some (Failure OrderingLaneAbortedError)]].
Proof. vm_compute. reflexivity. Qed.

Lemma lane_aborts_witness :
  (forall e, e ∈ [envelope 0] ->
     slots (do_complete refusing_first "orders" "k"
              (run_ops refusing_first two_lanes_one_key)) !! result_slot e
     = Some (Failure (SendError (PermanentSendError "malformed request"))))
  /\ (forall e,
        e ∈ pending (lane_of (run_ops refusing_first two_lanes_one_key)
                       "orders" "k") ->
        slots (do_complete refusing_first "orders" "k"
                 (run_ops refusing_first two_lanes_one_key)) !! result_slot e
        = Some (Failure OrderingLaneAbortedError))
  /\ pending (lane_of (do_complete refusing_first "orders" "k"
                         (run_ops refusing_first two_lanes_one_key))
                "orders" "k") = []
  /\ sink_log (do_complete refusing_first "orders" "k"
                 (run_ops refusing_first two_lanes_one_key))
     = sink_log (run_ops refusing_first two_lanes_one_key)
  /\ sink_calls (do_complete refusing_first "orders" "k"
                   (run_ops refusing_first two_lanes_one_key))
     = 1
  /\ (forall d' k',
        (d', k') <> ("orders", "k") ->
        lane_of (do_complete refusing_first "orders" "k"
                   (run_ops refusing_first two_lanes_one_key)) d' k'
        = lane_of (run_ops refusing_first two_lanes_one_key) d' k'
        /\ forall e,
             e ∈ pending (lane_of (run_ops refusing_first two_lanes_one_key)
                            d' k') ->
             slots (do_complete refusing_first "orders" "k"
                      (run_ops refusing_first two_lanes_one_key))
               !! result_slot e
             = None).
Proof.
  apply (lane_aborts_on_permanent_failure refusing_first two_lanes_one_key
           "orders" "k" [envelope 0] 1 "malformed request").
  - vm_compute. apply list_elem_of_here.
  - reflexivity.
Defined.

Example two_lanes_one_key_pending :
  (fun d =>
     result_slot
       <$> pending (lane_of (run_ops refusing_first two_lanes_one_key) d "k"))
    <$> ["orders"; "invoices"]
  = [[2]; [1]].
Proof. vm_compute. reflexivity. Qed.

Example transient_failures_are_retried :
  (fun st => (sink_calls st, slots st !! 0, result_slot <$> (sink_log st).*2))
    (run_ops flaky
       [Enqueue "orders" "k" hello ∅ 0; Dispatch "orders" "k";
        Complete "orders" "k"])
  = (3, Some (Success "0"), [0]).
Proof. vm_compute. reflexivity. Qed.

Example retries_run_out :
  (fun st => (sink_calls st, slots st !! 0, result_slot <$> (sink_log st).*2))
    (run_ops
       {| thresholds := thresholds flaky; max_attempt := 2;
          send_batch := send_batch flaky; abort_on_exhaustion := false |}
       [Enqueue "orders" "k" hello ∅ 0; Dispatch "orders" "k";
        Complete "orders" "k"])
  = (2, Some (Failure (SendError (TransientSendError "timeout"))), []).
Proof. vm_compute. reflexivity. Qed.

Example five_messages_pending :
  result_slot
    <$> pending (lane_of (run_ops refusing_first five_messages) "orders" "k")
  = [1; 2; 3; 4].
Proof. vm_compute. reflexivity. Qed.

End EngineFacts.

(** * Further properties of the two classes *)

Section PubsubMore.
Context `{Platform}.

(** What a configuration that was built holds. *)
Lemma conf_built_fields env service_account_file enable_ordering max_messages
    max_bytes conf :
  PubsubConnectionConf_init env service_account_file enable_ordering
    max_messages max_bytes = Return conf ->
  env !! "GOOGLE_CLOUD_PROJECT" = Some (project_id conf)
  /\ bach_settings conf = __set_batch_settings max_messages max_bytes
  /\ publisher_options conf = __set_publisher_options enable_ordering.
Proof.
  unfold PubsubConnectionConf_init.
  destruct (match service_account_file with
            | Some f => _
            | None => _
            end) as [creds|e]; simpl; [|discriminate].
  unfold __get_default_env.
  destruct (env !! "GOOGLE_CLOUD_PROJECT") as [p|]; simpl; [|discriminate].
  by intros [= <-].
Qed.

Lemma int_or_nonzero x d : d <> 0%Z -> int_or x d <> 0%Z.
Proof.
  intros Hd. unfold int_or. destruct x as [n|]; [|done]. by case_decide.
Qed.

(** X1: the thresholds of a configuration that was built are never zero:
    an explicit 0 counts as not given. *)
Theorem batch_thresholds_never_zero env service_account_file enable_ordering
    max_messages max_bytes conf :
  PubsubConnectionConf_init env service_account_file enable_ordering
    max_messages max_bytes = Return conf ->
  bs_max_messages (bach_settings conf) <> 0%Z
  /\ bs_max_bytes (bach_settings conf) <> 0%Z.
Proof.
  intros Hc. apply conf_built_fields in Hc as (_ & -> & _). simpl.
  split; by apply int_or_nonzero.
Qed.

(** X2: an explicit threshold other than 0 is kept as it is given,
    negative values included; an explicit 0 gives the default. *)
Theorem explicit_thresholds_are_kept env service_account_file enable_ordering
    max_messages max_bytes conf :
  PubsubConnectionConf_init env service_account_file enable_ordering
    max_messages max_bytes = Return conf ->
  (forall m, max_messages = Some m -> m <> 0%Z ->
     bs_max_messages (bach_settings conf) = m)
  /\ (forall b, max_bytes = Some b -> b <> 0%Z ->
        bs_max_bytes (bach_settings conf) = b)
  /\ (max_messages = Some 0%Z -> bs_max_messages (bach_settings conf) = 100%Z)
  /\ (max_bytes = Some 0%Z -> bs_max_bytes (bach_settings conf) = 1000000%Z).
Proof.
  intros Hc. apply conf_built_fields in Hc as (_ & -> & _). simpl.
  repeat split.
  - intros m -> Hm. simpl. by rewrite decide_False.
  - intros b -> Hb. simpl. by rewrite decide_False.
  - by intros ->.
  - by intros ->.
Qed.

(** X3: when the named key file does not load, the constructor raises the
    loader's exception, whether or not the project variable is set. *)
Theorem key_file_error_comes_first env f enable_ordering max_messages
    max_bytes e :
  f <> EmptyString ->
  from_service_account_file f cloud_platform_scopes = Raise e ->
  PubsubConnectionConf_init env (Some f) enable_ordering max_messages
    max_bytes = Raise e.
Proof.
  intros Hf He. unfold PubsubConnectionConf_init. simpl.
  rewrite bool_decide_true by done. by rewrite He.
Qed.

(** X4: with no key file, named [None] or by the empty string, no file is
    loaded: the configuration has no credentials, and the constructor succeeds
    exactly when the project variable is set. *)
Theorem no_key_file_no_credentials env service_account_file enable_ordering
    max_messages max_bytes :
  service_account_file = None \/ service_account_file = Some EmptyString ->
  PubsubConnectionConf_init env service_account_file enable_ordering
    max_messages max_bytes
  = match env !! "GOOGLE_CLOUD_PROJECT" with
    | Some p =>
        Return {| credentials := None;
                  project_id := p;
                  bach_settings :=
                    __set_batch_settings max_messages max_bytes;
                  publisher_options :=
                    __set_publisher_options enable_ordering |}
    | None =>
        Raise (ValueError
          ("The default value for GOOGLE_CLOUD_PROJECT"
             +:+ " was not found in ENV FILE"))
    end.
Proof.
  intros [-> | ->]; unfold PubsubConnectionConf_init, __get_default_env; simpl;
    by destruct (env !! "GOOGLE_CLOUD_PROJECT").
Qed.

(** X5: the credentials loaded from the key file, the ordering flag and the
    thresholds are what the manager constructs its client with. *)
Theorem key_file_credentials_reach_the_client env f enable_ordering
    max_messages max_bytes c conf :
  f <> EmptyString ->
  from_service_account_file f cloud_platform_scopes = Return c ->
  PubsubConnectionConf_init env (Some f) enable_ordering max_messages
    max_bytes = Return conf ->
  credentials conf = Some c
  /\ _client (PubsubManager_init conf)
     = new_PublisherClient
         {| bs_max_bytes := int_or max_bytes 1000000;
            bs_max_messages := int_or max_messages 100 |}
         {| enable_message_ordering := enable_ordering;
            retry := Retry_default |}
         (Some c).
Proof.
  intros Hf Hc. unfold PubsubConnectionConf_init. simpl.
  rewrite bool_decide_true by done. rewrite Hc. simpl.
  destruct (__get_default_env env "GOOGLE_CLOUD_PROJECT") as [p|e]; simpl;
    [|discriminate].
  by intros [= <-].
Qed.

(** ** More on publish *)

(** X6: a message that json.dumps refuses raises that exception out of
    publish before the client is called: nothing is sent and the network is
    as it was. *)
Theorem unserializable_message_sends_nothing self topic message attributes
    ordering_key n e :
  dumps message = Raise e ->
  publish self topic message attributes ordering_key n
  = {| value := Raise e; net := n; calls := [] |}.
Proof.
  intros Hd. unfold publish. rewrite publish_params_eq, Hd. reflexivity.
Qed.

(** X7: when the client's publish call raises, publish raises the same
    exception and waits on no future. *)
Theorem refused_message_is_not_awaited self topic message attributes
    ordering_key kw n e n1 :
  publish_params self topic message attributes ordering_key = Return kw ->
  client_publish (_client self) kw n = (Raise e, n1) ->
  publish self topic message attributes ordering_key n
  = {| value := Raise e; net := n1; calls := [CallPublish kw] |}.
Proof. intros Hp Hc. unfold publish. by rewrite Hp, Hc. Qed.

(** The caller's part of the keyword arguments, key by key. *)
Lemma caller_params_lookup attributes ordering_key k :
  caller_params attributes ordering_key !! k
  = if decide (k = "ordering_key" /\ truthy_str ordering_key = true)
    then Some (PyStr (default EmptyString ordering_key))
    else default ∅ attributes !! k.
Proof.
  assert ((if truthy_dict attributes
           then dict_update ∅ (default ∅ attributes) else ∅) !! k
          = default ∅ attributes !! k) as Hattrs.
  { destruct attributes as [a|]; simpl; [|done].
    case_bool_decide as Ha.
    - unfold dict_update. by rewrite (right_id_L ∅ (∪)).
    - by rewrite Ha. }
  unfold caller_params. destruct (truthy_str ordering_key) eqn:Hk.
  - destruct (decide (k = "ordering_key")) as [->|Hne].
    + rewrite decide_True by done. apply dict_update_lookup_new.
      by rewrite lookup_singleton_eq.
    + rewrite decide_False by (by intros [? _]).
      rewrite dict_update_lookup_old by (by rewrite lookup_singleton_ne).
      exact Hattrs.
  - rewrite decide_False by (by intros [_ ?]). exact Hattrs.
Qed.

Lemma reserved_other self topic json k :
  k <> "project" -> k <> "topic" -> k <> "data" ->
  reserved self topic json !! k = None.
Proof. intros ???. unfold reserved. by simplify_map_eq. Qed.

(** X8: an attribute whose key is none of project, topic and data, and is
    not ordering_key while an ordering key is given, reaches the client with
    the value the caller gave it; keys the caller did not give are not
    invented. *)
Theorem other_attributes_pass_through self topic message attributes
    ordering_key kw k :
  publish_params self topic message attributes ordering_key = Return kw ->
  k <> "project" -> k <> "topic" -> k <> "data" ->
  (k <> "ordering_key" \/ truthy_str ordering_key = false) ->
  kw !! k = default ∅ attributes !! k.
Proof.
  intros Hp Hproject Htopic Hdata Hkey.
  apply publish_params_Return in Hp as (json & _ & ->).
  rewrite dict_update_lookup_old by (by apply reserved_other).
  rewrite caller_params_lookup. apply decide_False.
  intros [-> Hk]. destruct Hkey as [?|Hkey]; [done|]. congruence.
Qed.

(** X9: the keywords of the client call are the caller's attribute keys,
    project, topic and data, and ordering_key when a non-empty ordering key
    is given: no other keyword is passed. *)
Theorem publish_keywords self topic message attributes ordering_key kw :
  publish_params self topic message attributes ordering_key = Return kw ->
  dom kw
  = dom (default ∅ attributes) ∪ {[ "project"; "topic"; "data" ]}
      ∪ (if truthy_str ordering_key then {[ "ordering_key" ]} else ∅).
Proof.
  intros Hp. apply publish_params_Return in Hp as (json & _ & ->).
  apply set_eq. intros k. rewrite elem_of_dom.
  destruct (decide (k = "project")) as [->|Hproject].
  { rewrite (dict_update_lookup_new _ _ _ _ (reserved_project self topic json)).
    split; [set_solver|eauto]. }
  destruct (decide (k = "topic")) as [->|Htopic].
  { rewrite (dict_update_lookup_new _ _ _ _ (reserved_topic self topic json)).
    split; [set_solver|eauto]. }
  destruct (decide (k = "data")) as [->|Hdata].
  { rewrite (dict_update_lookup_new _ _ _ _ (reserved_data self topic json)).
    split; [set_solver|eauto]. }
  rewrite dict_update_lookup_old by (by apply reserved_other).
  rewrite caller_params_lookup.
  destruct (truthy_str ordering_key) eqn:Hk.
  - destruct (decide (k = "ordering_key")) as [->|Hne].
    + rewrite decide_True by done. split; [set_solver|eauto].
    + rewrite decide_False by (by intros [? _]).
      rewrite <- elem_of_dom, !elem_of_union, !elem_of_singleton. tauto.
  - rewrite decide_False by (by intros [_ ?]).
    rewrite <- elem_of_dom, !elem_of_union, !elem_of_singleton.
    rewrite elem_of_empty. tauto.
Qed.

(** X10: project is passed as a keyword; for a client method that has no
    parameter of that name it is bound as a message attribute that carries
    the project id. *)
Theorem project_is_sent_as_attribute self topic message attributes
    ordering_key kw named :
  publish_params self topic message attributes ordering_key = Return kw ->
  "project" ∉ named ->
  bound_attrs named kw !! "project"
  = Some (PyStr (project_id (_connection_conf self)))
  /\ bound_params named kw !! "project" = None.
Proof.
  intros Hp Hnamed. apply publish_params_Return in Hp as (json & _ & ->).
  pose proof (dict_update_lookup_new
                (caller_params attributes ordering_key) _ _ _
                (reserved_project self topic json)) as Hkw.
  split.
  - unfold bound_attrs. apply map_lookup_filter_Some. by split.
  - unfold bound_params. apply map_lookup_filter_None. right.
    intros v _ Hn. by apply Hnamed.
Qed.

(** X11: one publish makes at most one publish call on the client, also
    when the client or the future raises, and it waits only on the future
    that this call returned. *)
Theorem publish_calls_the_client_once self topic message attributes
    ordering_key n :
  length (forwarded
            (calls (publish self topic message attributes ordering_key n)))
  <= 1
  /\ (forall future,
        CallResult future
          ∈ calls (publish self topic message attributes ordering_key n) ->
        exists kw n1,
          client_publish (_client self) kw n = (Return future, n1)
          /\ calls (publish self topic message attributes ordering_key n)
             = [CallPublish kw; CallResult future]).
Proof.
  unfold publish.
  destruct (publish_params self topic message attributes ordering_key)
    as [kw|e]; simpl.
  - destruct (client_publish (_client self) kw n) as [[future|e] n1] eqn:Hc;
      simpl.
    + destruct (future_result future n1) as [r n2]. simpl. split; [lia|].
      intros f Hf. apply elem_of_cons in Hf as [Hf|Hf]; [discriminate|].
      apply list_elem_of_singleton in Hf as [= ->]. by exists kw, n1.
    + split; [lia|]. intros f Hf.
      apply list_elem_of_singleton in Hf. discriminate.
  - split; [lia|]. intros f Hf. by apply elem_of_nil in Hf.
Qed.

(** X12: publish reads the client and the project id of the manager and
    nothing else of the configuration. *)
Theorem publish_reads_client_and_project_only self self' topic message
    attributes ordering_key n :
  _client self = _client self' ->
  project_id (_connection_conf self) = project_id (_connection_conf self') ->
  publish self topic message attributes ordering_key n
  = publish self' topic message attributes ordering_key n.
Proof.
  intros Hc Hp. unfold publish, publish_params, __get_topic_path.
  by rewrite Hc, Hp.
Qed.

(** X13: an empty attributes dict and an empty ordering key are as if they
    were not given. *)
Theorem empty_arguments_are_absent self topic message attributes ordering_key
    n :
  attributes = None \/ attributes = Some ∅ ->
  ordering_key = None \/ ordering_key = Some EmptyString ->
  publish self topic message attributes ordering_key n
  = publish self topic message None None n.
Proof.
  intros Ha Hk.
  assert (caller_params attributes ordering_key = caller_params None None)
    as Hsame.
  { apply map_eq. intros k. rewrite !caller_params_lookup.
    assert (truthy_str ordering_key = false) as ->
      by (by destruct Hk as [-> | ->]).
    rewrite !decide_False by (by intros [_ ?]).
    by destruct Ha as [-> | ->]. }
  unfold publish. rewrite !publish_params_eq, Hsame. reflexivity.
Qed.

End PubsubMore.

(** * The further properties at work *)

Module MoreFacts.
Import Loopback.

Lemma batch_thresholds_never_zero_witness :
  bs_max_messages (bach_settings (conf (Some 0%Z) (Some (-5)%Z))) <> 0%Z
  /\ bs_max_bytes (bach_settings (conf (Some 0%Z) (Some (-5)%Z))) <> 0%Z.
Proof.
  apply (batch_thresholds_never_zero env None false (Some 0%Z)
           (Some (-5)%Z)).
  reflexivity.
Defined.

Lemma explicit_thresholds_are_kept_witness :
  (forall m, Some (-3)%Z = Some m -> m <> 0%Z ->
     bs_max_messages (bach_settings (conf (Some (-3)%Z) (Some 0%Z))) = m)
  /\ (forall b, Some 0%Z = Some b -> b <> 0%Z ->
        bs_max_bytes (bach_settings (conf (Some (-3)%Z) (Some 0%Z))) = b)
  /\ (Some (-3)%Z = Some 0%Z ->
      bs_max_messages (bach_settings (conf (Some (-3)%Z) (Some 0%Z)))
      = 100%Z)
  /\ (Some 0%Z = Some 0%Z ->
      bs_max_bytes (bach_settings (conf (Some (-3)%Z) (Some 0%Z)))
      = 1000000%Z).
Proof.
  apply (explicit_thresholds_are_kept env None false (Some (-3)%Z)
           (Some 0%Z)).
  reflexivity.
Defined.

Lemma key_file_error_comes_first_witness :
  PubsubConnectionConf_init env (Some "missing.json") false None None
  = Raise (Exn "FileNotFoundError" "missing.json").
Proof.
  apply key_file_error_comes_first; [discriminate|reflexivity].
Defined.

Lemma no_key_file_no_credentials_witness :
  PubsubConnectionConf_init env (Some EmptyString) true None None
  = match env !! "GOOGLE_CLOUD_PROJECT" with
    | Some p =>
        Return {| credentials := None;
                  project_id := p;
                  bach_settings := __set_batch_settings None None;
                  publisher_options := __set_publisher_options true |}
    | None =>
        Raise (ValueError
          ("The default value for GOOGLE_CLOUD_PROJECT"
             +:+ " was not found in ENV FILE"))
    end.
Proof. apply no_key_file_no_credentials. by right. Defined.

Lemma key_file_credentials_reach_the_client_witness :
  credentials keyed_conf = Some "key.json"
  /\ _client (PubsubManager_init keyed_conf)
     = new_PublisherClient
         {| bs_max_bytes := int_or None 1000000;
            bs_max_messages := int_or (Some 7%Z) 100 |}
         {| enable_message_ordering := true; retry := Retry_default |}
         (Some "key.json").
Proof.
  apply (@key_file_credentials_reach_the_client platform env "key.json" true
           (Some 7%Z) None "key.json" keyed_conf);
    [discriminate|reflexivity|reflexivity].
Defined.

Lemma unserializable_message_sends_nothing_witness :
  publish (manager None None) "orders" (JList [JNull; JSet]) None None []
  = {| value :=
         Raise (Exn "TypeError" "Object of type set is not JSON serializable");
       net := []; calls := [] |}.
Proof. apply unserializable_message_sends_nothing. reflexivity. Defined.

Lemma refused_message_is_not_awaited_witness :
  @publish Guarded.platform Guarded.manager "orders" JNull None (Some "lane")
    []
  = @Build_run Guarded.platform
      (Raise (Exn "ValueError" "message ordering is not enabled")) []
      [@CallPublish Guarded.platform Guarded.lane_kwargs].
Proof.
  apply (@refused_message_is_not_awaited Guarded.platform).
  - vm_compute. reflexivity.
  - vm_compute. reflexivity.
Defined.

Lemma other_attributes_pass_through_witness :
  Guarded.colour_kwargs !! "colour"
  = default ∅ (Some ({[ "colour" := PyStr "red"; "data" := PyStr "mine" ]}
                      : gmap string pyval)) !! "colour".
Proof.
  apply (other_attributes_pass_through (manager None None) "orders" JNull
           (Some {[ "colour" := PyStr "red"; "data" := PyStr "mine" ]}) None);
    [vm_compute; reflexivity|done|done|done|by right].
Defined.

Lemma publish_keywords_witness :
  dom Guarded.colour_kwargs
  = dom (default ∅ (Some ({[ "colour" := PyStr "red" ]}
                           : gmap string pyval)))
      ∪ {[ "project"; "topic"; "data" ]}
      ∪ (if truthy_str None then {[ "ordering_key" ]} else ∅).
Proof.
  apply (publish_keywords (manager None None) "orders" JNull
           (Some {[ "colour" := PyStr "red" ]}) None).
  vm_compute. reflexivity.
Defined.

Lemma project_is_sent_as_attribute_witness :
  bound_attrs ["topic"; "data"; "ordering_key"] orders_kwargs !! "project"
  = Some (PyStr (project_id (_connection_conf (manager None None))))
  /\ bound_params ["topic"; "data"; "ordering_key"] orders_kwargs
       !! "project" = None.
Proof.
  apply (project_is_sent_as_attribute (manager None None) "orders" JNull None
           None).
  - vm_compute. reflexivity.
  - intros Hin. repeat (apply elem_of_cons in Hin as [Hin|Hin];
                        [discriminate|]).
    by apply elem_of_nil in Hin.
Defined.

Lemma publish_reads_client_and_project_only_witness :
  publish (manager None None) "orders" JNull None None []
  = publish
      (with_batch_settings {| bs_max_bytes := 1; bs_max_messages := 1 |}
         (manager None None))
      "orders" JNull None None [].
Proof.
  apply publish_reads_client_and_project_only; reflexivity.
Defined.

Lemma empty_arguments_are_absent_witness :
  publish (manager None None) "orders" JNull (Some ∅) (Some EmptyString) []
  = publish (manager None None) "orders" JNull None None [].
Proof. apply empty_arguments_are_absent; by right. Defined.

End MoreFacts.
